(** * typed-secure-storage: the encrypted record store, embedded in Rocq

    The development follows the two TypeScript classes of the package:

    - [AESGCMEncryptionService] (services/encryption-service.ts), the
      implementation of the [EncryptionService] interface;
    - [EncryptedStorage] (lib/storage.ts), the table-scoped store over
      [localStorage].

    Everything the classes obtain from the browser ([JSON], [TextEncoder],
    [btoa]/[atob], typed arrays, [crypto.subtle], the random generator) is
    gathered in the class [Platform]: the operations together with the
    guarantees the Web platform documents for them.  The classes themselves
    are translated statement by statement into a state-and-exception monad
    over a [World] made of the [localStorage] contents and the bytes the
    random generator is going to deliver.  An [await] is a sequencing
    point: calls run one after the other.  [setMultiple], whose calls of
    [set] interleave under [Promise.all], is therefore left out; a caller
    awaiting each [set] in turn is [set_in_turn]. *)

From Stdlib Require Import ZArith NArith String Ascii List Bool Lia.
From Stdlib Require Import Init.Byte.
From stdpp Require Import base option list strings pretty gmap fin_maps.

Local Open Scope string_scope.

(** ** JavaScript values

    The values the store handles are the ones that survive [JSON]: [null],
    booleans, (integral) numbers, strings, arrays and plain objects.  An
    object is the ordered list of its own enumerable properties.
    [undefined] is not a JSON value: a value that may be [undefined] has
    type [jsval], with [None] for [undefined]. *)

#[warnings="-register-all"]
Inductive json : Type :=
| JNull
| JBool (b : bool)
| JNum (n : Z)
| JStr (s : string)
| JArr (elems : list json)
| JObj (props : list (string * json)).

Definition jsval : Type := option json.

(** Property list of an object: lookup, and assignment that keeps the
    position of a property that already exists and appends a new one. *)
Fixpoint prop_lookup (name : string) (props : list (string * json)) : jsval :=
  match props with
  | [] => None
  | (k, v) :: rest => if String.eqb k name then Some v else prop_lookup name rest
  end.

Fixpoint prop_assign (name : string) (v : json) (props : list (string * json))
  : list (string * json) :=
  match props with
  | [] => [(name, v)]
  | (k, x) :: rest =>
      if String.eqb k name then (k, v) :: rest
      else (k, x) :: prop_assign name v rest
  end.

(** Decimal spelling of an array index, as used for the property names of
    arrays and strings. *)
Definition index_name (i : nat) : string := pretty i.

Fixpoint string_chars (s : string) : list json :=
  match s with
  | EmptyString => []
  | String c rest => JStr (String c EmptyString) :: string_chars rest
  end.

(** Own enumerable properties, as copied by the spread [{...v}]. *)
Definition own_properties (v : json) : list (string * json) :=
  match v with
  | JObj props => props
  | JArr elems => imap (fun i x => (index_name i, x)) elems
  | JStr s => imap (fun i x => (index_name i, x)) (string_chars s)
  | JNull | JBool _ | JNum _ => []
  end.

(** [{ ...value, key: k }] *)
Definition spread_with_key (value : json) (k : string) : json :=
  JObj (prop_assign "key" (JStr k) (own_properties value)).

(** [o.name] on a value that is neither [null] nor [undefined]; the only
    names read by the package are ["iv"], ["data"] and ["key"], none of
    which is an index or a built-in property of arrays and strings. *)
Definition get_property (name : string) (o : json) : jsval :=
  match o with
  | JObj props => prop_lookup name props
  | _ => None
  end.

(** Truthiness of a value that is a string, [null] or [undefined]. *)
Definition truthy (s : option string) : bool :=
  match s with
  | None => false
  | Some s => negb (String.eqb s "")
  end.

(** ** Exceptions and outcomes *)

Inductive exn : Type :=
| Error (message : string)
| SyntaxError
| TypeError
| RangeError
| InvalidCharacterError
| OperationError.

(** A call returns, throws, or needs more random bytes than the world
    holds ([Starved], which no JavaScript run shows: it only marks the end
    of the finite random supply of the model). *)
Inductive outcome (A : Type) : Type :=
| Ret (a : A)
| Throw (e : exn)
| Starved.
Arguments Ret {A} a.
Arguments Throw {A} e.
Arguments Starved {A}.

Definition bytes : Type := list byte.

Definition byte_num (b : byte) : json := JNum (Z.of_N (Byte.to_N b)).

(** [Array.from(u8)] for a [Uint8Array]. *)
Definition Array_from (u8 : bytes) : json := JArr (map byte_num u8).

(** [String.fromCharCode(...u8)] and [Uint8Array.from(s, c => c.charCodeAt(0))]
    on binary strings (every code unit below 256). *)
Definition String_fromCharCode (u8 : bytes) : string := string_of_list_byte u8.
Definition charCodes (s : string) : bytes := list_byte_of_string s.

(** The envelope object built by [encrypt]. *)
Definition envelope (iv : bytes) (data : string) : json :=
  JObj [("iv", Array_from iv); ("data", JStr data)].

(** ** The platform *)

Class Platform : Type := {
  CryptoKey : Type;
  (** [JSON.stringify] and [JSON.parse] ([None]: [SyntaxError]). *)
  JSON_stringify : json -> string;
  JSON_parse : string -> option json;
  (** [new TextEncoder().encode] and [new TextDecoder().decode]. *)
  TextEncoder_encode : string -> bytes;
  TextDecoder_decode : bytes -> string;
  (** [btoa] on binary strings, [atob] ([None]: [InvalidCharacterError]). *)
  btoa : string -> string;
  atob : string -> option string;
  (** [String(v)], the conversion [atob] applies to its argument. *)
  ToString : jsval -> string;
  (** [new Uint8Array(v)], or the exception it throws. *)
  Uint8Array_new : jsval -> exn + bytes;
  (** [crypto.randomUUID()] as a function of the 16 random bytes it draws. *)
  UUID_of_random : bytes -> string;
  (** [crypto.subtle.encrypt/decrypt({name: "AES-GCM", iv}, key, data)]
      ([None]: the promise rejects with an [OperationError]). *)
  subtle_encrypt : CryptoKey -> bytes -> bytes -> option bytes;
  subtle_decrypt : CryptoKey -> bytes -> bytes -> option bytes;
  (** [importKey("raw", secret, "PBKDF2")] followed by
      [deriveKey({PBKDF2, salt, iterations, hash}, _, {AES-GCM, length})]. *)
  subtle_deriveKey_PBKDF2 :
    forall (salt : bytes) (iterations : N) (hash : string)
           (secret : bytes) (length : N), CryptoKey;

  (** What the model relies on: the empty text is not JSON; the text of an
      envelope parses back to the envelope; UTF-8 encoding is undone by
      decoding on JSON texts; [atob] undoes [btoa]; [String] of a string
      is the string; a typed array built from the array of its bytes has
      those bytes; a UUID is not the empty text; AES-GCM decryption undoes
      encryption under the same key and nonce, and encryption under a
      12-byte nonce succeeds. *)
  JSON_parse_empty : JSON_parse "" = None;
  JSON_envelope : forall iv data,
    JSON_parse (JSON_stringify (envelope iv data)) = Some (envelope iv data);
  TextDecoder_TextEncoder : forall v,
    TextDecoder_decode (TextEncoder_encode (JSON_stringify v))
    = JSON_stringify v;
  atob_btoa : forall s, atob (btoa s) = Some s;
  ToString_string : forall s, ToString (Some (JStr s)) = s;
  Uint8Array_of_Array : forall u8,
    Uint8Array_new (Some (Array_from u8)) = inr u8;
  UUID_nonempty : forall r, UUID_of_random r <> "";
  AES_GCM_decrypt_encrypt : forall k iv pt ct,
    subtle_encrypt k iv pt = Some ct -> subtle_decrypt k iv ct = Some pt;
  AES_GCM_encrypt_total : forall k iv pt,
    length iv = 12%nat -> is_Some (subtle_encrypt k iv pt)
}.

(** ** The world and the monad *)

Record World : Type := mkWorld {
  localStorage : gmap string string;
  entropy : bytes
}.

Definition M (A : Type) : Type := World -> outcome A * World.

Definition ret {A} (a : A) : M A := fun w => (Ret a, w).
Definition throw {A} (e : exn) : M A := fun w => (Throw e, w).
Definition bind {A B} (m : M A) (k : A -> M B) : M B :=
  fun w =>
    match m w with
    | (Ret a, w') => k a w'
    | (Throw e, w') => (Throw e, w')
    | (Starved, w') => (Starved, w')
    end.

Declare Scope js_scope.
Delimit Scope js_scope with js.
Notation "'let*' x ':=' m 'in' k" := (bind m (fun x => k))
  (at level 10, x name, m at level 100, k at level 200) : js_scope.
Notation "m ';;' k" := (bind m (fun _ => k))
  (at level 100, k at level 200, right associativity) : js_scope.
Local Open Scope js_scope.

(** A synchronous call that may throw. *)
Definition lift {A} (o : outcome A) : M A := fun w => (o, w).
Definition lift_sum {A} (o : exn + A) : M A :=
  match o with
  | inl e => throw e
  | inr a => ret a
  end.

(** [crypto.getRandomValues(new Uint8Array(n))] *)
Definition getRandomValues (n : nat) : M bytes :=
  fun w =>
    if decide (n <= length (entropy w))%nat
    then (Ret (take n (entropy w)),
          mkWorld (localStorage w) (drop n (entropy w)))
    else (Starved, w).

(** [crypto.randomUUID()] *)
Definition randomUUID `{Platform} : M string :=
  let* r := getRandomValues 16 in ret (UUID_of_random r).

(** [localStorage.getItem], [setItem], [removeItem], [Object.keys(localStorage)] *)
Definition localStorage_getItem (k : string) : M (option string) :=
  fun w => (Ret (localStorage w !! k), w).
Definition localStorage_setItem (k v : string) : M unit :=
  fun w => (Ret tt, mkWorld (<[k := v]> (localStorage w)) (entropy w)).
Definition localStorage_removeItem (k : string) : M unit :=
  fun w => (Ret tt, mkWorld (delete k (localStorage w)) (entropy w)).
Definition Object_keys (m : gmap string string) : list string :=
  (map_to_list m).*1.
Definition localStorage_keys : M (list string) :=
  fun w => (Ret (Object_keys (localStorage w)), w).

(** ** String helpers of the JavaScript library *)

Fixpoint string_drop (n : nat) (s : string) : string :=
  match n, s with
  | O, _ => s
  | S n', String _ rest => string_drop n' rest
  | S _, EmptyString => EmptyString
  end.

(** [s.startsWith(p)] *)
Definition startsWith (s p : string) : bool := String.prefix p s.

(** [s.replace(pat, repl)] with a string pattern: the first occurrence of
    [pat] is replaced.  The package only passes [repl = ""], so the [$]
    patterns of the replacement text play no part. *)
Fixpoint String_replace (pat repl s : string) : string :=
  if String.prefix pat s then repl ++ string_drop (String.length pat) s
  else match s with
       | EmptyString => EmptyString
       | String c rest => String c (String_replace pat repl rest)
       end.

(** [key || alt]: the key when it is a non-empty string, else [alt]. *)
Definition or_else (key : option string) (alt : M string) : M string :=
  if truthy key then ret (default "" key) else alt.

(** [key == undefined] *)
Definition is_undefined {A} (key : option A) : bool :=
  match key with None => true | Some _ => false end.

(** ** interfaces/encryption-service.ts *)

Record EncryptionService : Type := {
  encrypt : string -> M string;
  decrypt : string -> M string
}.

(** [this.encryptionService?.m(x) ?? ""] *)
Definition optional_call (svc : option EncryptionService)
    (m : EncryptionService -> string -> M string) (x : string) : M string :=
  match svc with
  | Some svc => m svc x
  | None => ret ""
  end.

(** ** services/encryption-service.ts *)

Module AESGCM.
Section WithPlatform.
Context `{Platform}.

Definition not_initialized : exn :=
  Error "Encryption key has not been initialized.".

Definition encrypt (encryptionKey : option CryptoKey) (data : string)
  : M string :=
  match encryptionKey with
  | None => throw not_initialized
  | Some k =>
      let* iv := getRandomValues 12 in
      match subtle_encrypt k iv (TextEncoder_encode data) with
      | None => throw OperationError
      | Some encryptedData =>
          let buffer := encryptedData in
          let base64Data := btoa (String_fromCharCode buffer) in
          ret (JSON_stringify (envelope iv base64Data))
      end
  end.

(** [const { iv, data } = parsed]: a [TypeError] on [null], the two
    properties (possibly [undefined]) otherwise. *)
Definition destructure_iv_data (parsed : json) : outcome (jsval * jsval) :=
  match parsed with
  | JNull => Throw TypeError
  | o => Ret (get_property "iv" o, get_property "data" o)
  end.

Definition decrypt (encryptionKey : option CryptoKey) (encrypted : string)
  : M string :=
  match encryptionKey with
  | None => throw not_initialized
  | Some k =>
      match JSON_parse encrypted with
      | None => throw SyntaxError
      | Some parsed =>
          let* fields := lift (destructure_iv_data parsed) in
          let* ivArray := lift_sum (Uint8Array_new (fst fields)) in
          match atob (ToString (snd fields)) with
          | None => throw InvalidCharacterError
          | Some binary =>
              let dataArray := charCodes binary in
              match subtle_decrypt k ivArray dataArray with
              | None => throw OperationError
              | Some decryptedData => ret (TextDecoder_decode decryptedData)
              end
          end
      end
  end.

End WithPlatform.
End AESGCM.

(** [new AESGCMEncryptionService(encryptionKey)]; the key is optional
    because both methods test it before use. *)
Definition AESGCMEncryptionService `{Platform}
    (encryptionKey : option CryptoKey) : EncryptionService :=
  {| encrypt := AESGCM.encrypt encryptionKey;
     decrypt := AESGCM.decrypt encryptionKey |}.

(** ** lib/storage.ts *)

(** What the constructor finds in the global scope. *)
Record Env : Type := {
  window_defined : bool;
  window_crypto_subtle : bool;
  window_localStorage : bool
}.

(** How the promise of the factory is rejected: by an exception of the
    model, or by the [ReferenceError] of a global that is not declared
    ([OutOfEntropy] stands for [Starved]). *)
Inductive failure : Type :=
| Thrown (e : exn)
| ReferenceError (name : string)
| OutOfEntropy.

Definition settle {A} (o : outcome A) : failure + A :=
  match o with
  | Ret a => inr a
  | Throw e => inl (Thrown e)
  | Starved => inl OutOfEntropy
  end.

Module EncryptedStorage.
Section WithPlatform.
Context `{Platform}.

Record t : Type := {
  prefix : string;
  encryptionService : option EncryptionService
}.

Definition constructor (env : Env) (encryptionService : EncryptionService)
    (prefix : option string) : outcome t :=
  if negb (window_defined env)
  then Throw (Error "This library works only on client side.")
  else if negb (window_crypto_subtle env)
  then Throw (Error "SubtleCrypto API is not supported in this environment.")
  else if negb (window_localStorage env)
  then Throw (Error "LocalStorage API is not supported in this environment.")
  else Ret {| prefix := default "@edb" prefix;
              encryptionService := Some encryptionService |}.

(** [`${this.prefix}_${String(tableName)}_`] and
    [`${this.prefix}_${String(tableName)}_${key}`] *)
Definition table_prefix (this : t) (tableName : string) : string :=
  prefix this ++ "_" ++ tableName ++ "_".

Definition storage_key (this : t) (tableName key : string) : string :=
  prefix this ++ "_" ++ tableName ++ "_" ++ key.

Definition exists_ (this : t) (tableName key : string) : M bool :=
  let* item := localStorage_getItem (storage_key this tableName key) in
  ret (truthy item).

(** [set]: the recursive call of the retry is counted by [fuel]; the
    method itself, below, starts with more fuel than the random supply
    can feed retries. *)
Fixpoint set_ (fuel : nat) (this : t) (tableName : string) (value : json)
    (key : option string) : M json :=
  match fuel with
  | O => lift Starved
  | S fuel' =>
      let* finalKey := or_else key randomUUID in
      let* found := exists_ this tableName finalKey in
      if found && is_undefined key
      then set_ fuel' this tableName value None
      else
        let* encryptedValue :=
          optional_call (encryptionService this) encrypt
                        (JSON_stringify value) in
        localStorage_setItem (storage_key this tableName finalKey)
                             encryptedValue ;;
        ret (spread_with_key value finalKey)
  end.

Definition set (this : t) (tableName : string) (value : json)
    (key : option string) : M json :=
  fun w => set_ (S (length (entropy w))) this tableName value key w.

Definition get (this : t) (tableName key : string) : M json :=
  let* item := localStorage_getItem (storage_key this tableName key) in
  if negb (truthy item) then ret JNull
  else
    let* decryptedValue :=
      optional_call (encryptionService this) decrypt (default "" item) in
    match JSON_parse decryptedValue with
    | None => throw SyntaxError
    | Some parsed => ret parsed
    end.

(** The [for (const key of keys)] loop of [getAll]. *)
Fixpoint getAll_loop (this : t) (tableName : string) (keys : list string)
    (results : list json) : M (list json) :=
  match keys with
  | [] => ret results
  | key :: rest =>
      let* item := localStorage_getItem key in
      if truthy item then
        let* decryptedValue :=
          optional_call (encryptionService this) decrypt (default "" item) in
        match JSON_parse decryptedValue with
        | None => throw SyntaxError
        | Some parsed =>
            getAll_loop this tableName rest
              (results ++
               [spread_with_key parsed
                  (String_replace (table_prefix this tableName) "" key)])
        end
      else getAll_loop this tableName rest results
  end.

Definition getAll (this : t) (tableName : string) : M (list json) :=
  let results := [] in
  let* allKeys := localStorage_keys in
  let keys :=
    List.filter (fun key => startsWith key (table_prefix this tableName))
                allKeys in
  getAll_loop this tableName keys results.

Definition filter (this : t) (tableName : string) (predicate : json -> bool)
  : M (list json) :=
  let* allItems := getAll this tableName in
  ret (List.filter predicate allItems).

Definition remove (this : t) (tableName key : string) : M unit :=
  localStorage_removeItem (storage_key this tableName key).

(** [generateKeyFromSecret] reads [window.crypto.subtle.importKey] before
    its arguments and before any other call: a [ReferenceError] where
    [window] is not declared (which is how [typeof window] comes to be
    ["undefined"] outside a page: Node, a worker), a [TypeError] where
    [window.crypto.subtle] is [undefined]. *)
Definition generateKeyFromSecret (env : Env) (secret : string) (salt : bytes)
  : failure + CryptoKey :=
  if negb (window_defined env) then inl (ReferenceError "window")
  else if negb (window_crypto_subtle env) then inl (Thrown TypeError)
  else inr (subtle_deriveKey_PBKDF2 salt 100000 "SHA-256"
                                    (TextEncoder_encode secret) 256).

(** The factory [createTypedSecureStorage]: the key is awaited first, then
    the service and the store are constructed. *)
Definition createTypedSecureStorage (env : Env) (secret salt : string)
    (prefix : option string) : failure + t :=
  match generateKeyFromSecret env secret (TextEncoder_encode salt) with
  | inl f => inl f
  | inr key =>
      let encryptionService := AESGCMEncryptionService (Some key) in
      settle (constructor env encryptionService prefix)
  end.

End WithPlatform.
End EncryptedStorage.

(** ** Vocabulary of the properties *)

(** A value is JSON-serializable when [JSON.parse] gives it back from its
    [JSON.stringify] text. *)
Definition JSON_serializable `{Platform} (V : json) : Prop :=
  JSON_parse (JSON_stringify V) = Some V.

(** The global scope of a browser page. *)
Definition browser : Env :=
  {| window_defined := true;
     window_crypto_subtle := true;
     window_localStorage := true |}.

(** The object a successful construction over the AES-GCM service yields. *)
Definition store `{Platform} (encryptionKey : option CryptoKey)
    (prefix : option string) : EncryptedStorage.t :=
  {| EncryptedStorage.prefix := default "@edb" prefix;
     EncryptedStorage.encryptionService :=
       Some (AESGCMEncryptionService encryptionKey) |}.

(** A caller awaiting one [set] after the other, each without a key. *)
Fixpoint set_in_turn `{Platform} (this : EncryptedStorage.t)
    (tableName : string) (values : list json) : M (list json) :=
  match values with
  | [] => ret []
  | value :: rest =>
      let* stored := EncryptedStorage.set this tableName value None in
      let* others := set_in_turn this tableName rest in
      ret (stored :: others)
  end.

(** The world after one draw of [n] random bytes, and the UUID the
    generator gives first. *)
Definition drawn (n : nat) (w : World) : World :=
  mkWorld (localStorage w) (drop n (entropy w)).

Definition first_uuid `{Platform} (w : World) : string :=
  UUID_of_random (take 16 (entropy w)).

(** [decrypt] neither reads nor changes the world (lemma [decrypt_run]):
    its outcome is a function of the key and of the text. *)
Definition decrypt_outcome `{Platform} (encryptionKey : option CryptoKey)
    (encrypted : string) : outcome string :=
  fst (AESGCM.decrypt encryptionKey encrypted (mkWorld ∅ [])).

(** What [get] makes of the item found at the storage key. *)
Definition read_value `{Platform} (encryptionKey : option CryptoKey)
    (item : option string) : outcome json :=
  if negb (truthy item) then Ret JNull
  else match decrypt_outcome encryptionKey (default "" item) with
       | Ret decryptedValue =>
           match JSON_parse decryptedValue with
           | None => Throw SyntaxError
           | Some parsed => Ret parsed
           end
       | Throw e => Throw e
       | Starved => Starved
       end.

(** The part of [set] after the retry test: encrypt, write, return. *)
Definition write_record `{Platform} (encryptionKey : option CryptoKey)
    (prefix : option string) (T : string) (V : json) (finalKey : string)
  : M json :=
  let* encryptedValue := AESGCM.encrypt encryptionKey (JSON_stringify V) in
  localStorage_setItem
    (EncryptedStorage.storage_key (store encryptionKey prefix) T finalKey)
    encryptedValue ;;
  ret (spread_with_key V finalKey).

(** The body of [set], with the recursive call as a parameter. *)
Definition set_body `{Platform} (encryptionKey : option CryptoKey)
    (prefix : option string) (retry : M json) (T : string) (V : json)
    (key : option string) : M json :=
  let* finalKey := or_else key randomUUID in
  let* found :=
    EncryptedStorage.exists_ (store encryptionKey prefix) T finalKey in
  if found && is_undefined key then retry
  else write_record encryptionKey prefix T V finalKey.

(** The keys [getAll] scans. *)
Definition table_keys `{Platform} (encryptionKey : option CryptoKey)
    (prefix : option string) (T : string) (m : gmap string string)
  : list string :=
  List.filter
    (fun key =>
       startsWith key
         (EncryptedStorage.table_prefix (store encryptionKey prefix) T))
    (Object_keys m).

(** One turn of the loop of [getAll]: nothing for a falsy item, the record
    with its key for an item that decrypts and parses, the exception
    otherwise. *)
Definition read_record `{Platform} (encryptionKey : option CryptoKey)
    (prefix : option string) (T : string) (m : gmap string string)
    (key : string) : outcome (option json) :=
  if truthy (m !! key) then
    match decrypt_outcome encryptionKey (default "" (m !! key)) with
    | Ret decryptedValue =>
        match JSON_parse decryptedValue with
        | None => Throw SyntaxError
        | Some parsed =>
            Ret (Some (spread_with_key parsed
                         (String_replace
                            (EncryptedStorage.table_prefix
                               (store encryptionKey prefix) T)
                            "" key)))
        end
    | Throw e => Throw e
    | Starved => Starved
    end
  else Ret None.

(** The medium [m] holds, at the storage key of [(T, k)], an envelope of
    the serialized value [V] under the key of the store. *)
Definition holds_record `{Platform} (encryptionKey : option CryptoKey)
    (prefix : option string) (m : gmap string string) (T : string)
    (V : json) (k : string) : Prop :=
  exists c iv ct,
    encryptionKey = Some c /\
    subtle_encrypt c iv (TextEncoder_encode (JSON_stringify V)) = Some ct /\
    m !! EncryptedStorage.storage_key (store encryptionKey prefix) T k =
      Some (JSON_stringify (envelope iv (btoa (String_fromCharCode ct)))).

(** Whether a text contains the separator of storage keys. *)
Fixpoint has_separator (s : string) : bool :=
  match s with
  | EmptyString => false
  | String c rest => Ascii.eqb c "_" || has_separator rest
  end.

(** The loop of [getAll] over the outcomes of its turns. *)
Fixpoint collect (turns : list (outcome (option json))) (results : list json)
  : outcome (list json) :=
  match turns with
  | [] => Ret results
  | Ret (Some r) :: rest => collect rest (results ++ [r])
  | Ret None :: rest => collect rest results
  | Throw e :: _ => Throw e
  | Starved :: _ => Starved
  end.

(** ** [setMultiple]: calls of [set] in flight together

    [values.map((value) => this.set(tableName, value))] starts one call of
    [set] per value, without a key; each call runs to its first [await] and
    is suspended there, before the next one starts.  [Promise.all] then
    waits while the event loop resumes the suspended calls, each up to its
    next [await] or to its end.  The order of these resumptions is the
    event loop's: it is the [schedule] below, a list of positions in the
    batch, and the properties hold for every schedule.

    A call of [set] without key is suspended at [await this.exists(...)]
    (the body of [exists] has run: its answer is in the promise) or, inside
    [encrypt], at [await crypto.subtle.encrypt(...)] (key checked, nonce
    drawn); or it has settled. *)

Inductive call `{Platform} : Type :=
| AwaitExists (value : json) (finalKey : string) (found : bool)
| AwaitCipher (value : json) (finalKey : string) (key : CryptoKey) (iv : bytes)
| Resolved (result : json)
| Rejected (e : exn).

Section SetMultiple.
Context `{Platform}.
Variable encryptionKey : option CryptoKey.
Variable prefix : option string.

(** [this.set(tableName, value)] up to [await this.exists(...)]. *)
Definition set_start (tableName : string) (value : json) : M call :=
  let key : option string := None in
  let* finalKey := or_else key randomUUID in
  let* found :=
    EncryptedStorage.exists_ (store encryptionKey prefix) tableName finalKey in
  ret (AwaitExists value finalKey found).

(** A suspended call resumed, up to its next [await] or to its end: after
    [await this.exists(...)] the retry (the call becomes the inner call) or
    [encrypt] up to its [await]; after [await crypto.subtle.encrypt(...)]
    the rest of [encrypt] and of [set]. *)
Definition set_resume (tableName : string) (c : call) : M call :=
  match c with
  | AwaitExists value finalKey found =>
      let key : option string := None in
      if found && is_undefined key then set_start tableName value
      else
        match encryptionKey with
        | None => ret (Rejected AESGCM.not_initialized)
        | Some k =>
            let* iv := getRandomValues 12 in
            ret (AwaitCipher value finalKey k iv)
        end
  | AwaitCipher value finalKey k iv =>
      match subtle_encrypt k iv (TextEncoder_encode (JSON_stringify value)) with
      | None => ret (Rejected OperationError)
      | Some encryptedData =>
          let buffer := encryptedData in
          let base64Data := btoa (String_fromCharCode buffer) in
          let encryptedValue := JSON_stringify (envelope iv base64Data) in
          localStorage_setItem
            (EncryptedStorage.storage_key (store encryptionKey prefix)
               tableName finalKey)
            encryptedValue ;;
          ret (Resolved (spread_with_key value finalKey))
      end
  | Resolved _ | Rejected _ => ret c
  end.

(** [values.map((value) => this.set(tableName, value))] *)
Fixpoint start_in_order (tableName : string) (values : list json)
  : M (list call) :=
  match values with
  | [] => ret []
  | value :: rest =>
      let* c := set_start tableName value in
      let* cs := start_in_order tableName rest in
      ret (c :: cs)
  end.

(** The resumptions, in the order of the schedule. *)
Fixpoint resume_in_order (tableName : string) (schedule : list nat)
    (calls : list call) : M (list call) :=
  match schedule with
  | [] => ret calls
  | i :: rest =>
      match calls !! i with
      | Some c =>
          let* c' := set_resume tableName c in
          resume_in_order tableName rest (<[i := c']> calls)
      | None => resume_in_order tableName rest calls
      end
  end.

(** The calls of [setMultiple] after the resumptions of a schedule. *)
Definition setMultiple (schedule : list nat) (tableName : string)
    (values : list json) : M (list call) :=
  let* calls := start_in_order tableName values in
  resume_in_order tableName schedule calls.

(** One call alone, resumed a number of times. *)
Fixpoint drive (tableName : string) (turns : nat) (c : call) : M call :=
  match turns with
  | O => ret c
  | S turns' =>
      let* c' := set_resume tableName c in drive tableName turns' c'
  end.
End SetMultiple.

(** What [await Promise.all(calls)] resolves with, once every call has
    resolved. *)
Fixpoint Promise_all `{Platform} (calls : list call) : option (list json) :=
  match calls with
  | [] => Some []
  | Resolved result :: rest =>
      match Promise_all rest with
      | Some results => Some (result :: results)
      | None => None
      end
  | _ :: _ => None
  end.

(** How a settled call settled. *)
Definition settlement `{Platform} (c : call) : option (outcome json) :=
  match c with
  | Resolved result => Some (Ret result)
  | Rejected e => Some (Throw e)
  | AwaitExists _ _ _ | AwaitCipher _ _ _ _ => None
  end.

(** Resumptions a call is at most away from settling. *)
Definition turns_left `{Platform} (c : call) : nat :=
  match c with
  | AwaitExists _ _ _ => 2
  | AwaitCipher _ _ _ _ => 1
  | Resolved _ | Rejected _ => 0
  end.

(** The UUIDs of [n] draws in a row. *)
Fixpoint batch_keys `{Platform} (n : nat) (random : bytes) : list string :=
  match n with
  | O => []
  | S n' => UUID_of_random (take 16 random) :: batch_keys n' (drop 16 random)
  end.

(** Calls that have not drawn their nonce yet. *)
Definition pending `{Platform} (c : call) : nat :=
  match c with AwaitExists _ _ _ => 1 | _ => 0 end.

(** The states of a call of the batch whose first key [U] was free. *)
Definition call_ok `{Platform} (k : CryptoKey) (V : json) (U : string)
    (c : call) : Prop :=
  c = AwaitExists V U false \/
  (exists iv, length iv = 12%nat /\ c = AwaitCipher V U k iv) \/
  c = Resolved (spread_with_key V U).

(** The states of a batch whose first keys [Us] were all free in the
    medium [m0], with [E] the random supply left after the starts. *)
Definition batch_ok `{Platform} (encryptionKey : option CryptoKey)
    (prefix : option string) (k : CryptoKey) (T : string) (Vs : list json)
    (Us : list string) (m0 : gmap string string) (E : bytes)
    (calls : list call) (w : World) : Prop :=
  length calls = length Vs /\
  (forall i c V U,
     calls !! i = Some c -> Vs !! i = Some V -> Us !! i = Some U ->
     call_ok k V U c) /\
  (exists d,
     entropy w = drop d E /\
     (d + 12 * sum_list_with pending calls = 12 * length Vs)%nat) /\
  (forall i r U,
     calls !! i = Some (Resolved r) -> Us !! i = Some U ->
     exists j V,
       Us !! j = Some U /\ Vs !! j = Some V /\
       holds_record encryptionKey prefix (localStorage w) T V U) /\
  (forall ck,
     (forall U,
        U ∈ Us ->
        ck <> EncryptedStorage.storage_key (store encryptionKey prefix) T U) ->
     localStorage w !! ck = m0 !! ck).

(** The states of a call of a store without key. *)
Definition unkeyed `{Platform} (c : call) : Prop :=
  match c with
  | AwaitExists _ _ _ => True
  | Rejected e => e = AESGCM.not_initialized
  | AwaitCipher _ _ _ _ | Resolved _ => False
  end.

(** ** An executable platform

    A small in-memory platform on which the model runs inside Rocq: it is
    what the concrete runs at the end of the file are evaluated on.  Its
    JSON text is the binary spelling of stdpp's numbering of trees, its
    text encoding and its [btoa] keep the bytes as they are, and its cipher
    appends key and nonce to the plaintext as an authentication tag. *)

Module Mock.
Definition atom : Type := (Z + string)%type.

Fixpoint to_tree (v : json) : gen_tree atom :=
  match v with
  | JNull => GenNode 0 []
  | JBool true => GenNode 1 []
  | JBool false => GenNode 2 []
  | JNum n => GenLeaf (inl n)
  | JStr s => GenLeaf (inr s)
  | JArr elems => GenNode 3 (map to_tree elems)
  | JObj props =>
      GenNode 4 (map (fun '(k, x) => GenNode 5 [GenLeaf (inr k); to_tree x])
                     props)
  end.

Fixpoint of_tree (t : gen_tree atom) : json :=
  match t with
  | GenLeaf (inl n) => JNum n
  | GenLeaf (inr s) => JStr s
  | GenNode 1 _ => JBool true
  | GenNode 2 _ => JBool false
  | GenNode 3 ts => JArr (map of_tree ts)
  | GenNode 4 ts =>
      JObj (map (fun p => match p with
                          | GenNode _ [GenLeaf (inr k); x] => (k, of_tree x)
                          | _ => (EmptyString, JNull)
                          end) ts)
  | GenNode _ _ => JNull
  end.

Fixpoint pos_digits (p : positive) : string :=
  match p with
  | xH => "."
  | xO q => String "0" (pos_digits q)
  | xI q => String "1" (pos_digits q)
  end.

Fixpoint digits_pos (s : string) : option positive :=
  match s with
  | EmptyString => None
  | String c rest =>
      if Ascii.eqb c "." then
        match rest with EmptyString => Some xH | _ => None end
      else if Ascii.eqb c "0" then xO <$> digits_pos rest
      else if Ascii.eqb c "1" then xI <$> digits_pos rest
      else None
  end.

Definition stringify (v : json) : string := pos_digits (encode (to_tree v)).
Definition parse (s : string) : option json :=
  p ← digits_pos s; t ← decode p; Some (of_tree t).

Definition to_string (v : jsval) : string :=
  match v with
  | None => "undefined"
  | Some (JStr s) => s
  | Some JNull => "null"
  | Some (JBool true) => "true"
  | Some (JBool false) => "false"
  | Some (JNum n) => pretty n
  | Some (JArr _) => ""
  | Some (JObj _) => "[object Object]"
  end.

Definition to_uint8 (v : json) : byte :=
  match v with
  | JNum n => default "000"%byte (Byte.of_N (Z.to_N (n mod 256)))
  | _ => "000"%byte
  end.

Definition uint8array (v : jsval) : exn + bytes :=
  match v with
  | Some (JArr elems) => inr (map to_uint8 elems)
  | Some (JNum n) =>
      if decide (0 <= n)%Z then inr (replicate (Z.to_nat n) "000"%byte)
      else inl RangeError
  | _ => inr []
  end.

Definition hex_digit (n : N) : ascii :=
  default "0"%char
    (list_ascii_of_string "0123456789abcdef" !! N.to_nat n).

Definition hex_byte (b : byte) : string :=
  String (hex_digit (N.shiftr (Byte.to_N b) 4))
    (String (hex_digit (N.land (Byte.to_N b) 15)) EmptyString).

Fixpoint hex (u8 : bytes) : string :=
  match u8 with
  | [] => EmptyString
  | b :: rest => hex_byte b ++ hex rest
  end.

Definition uuid (r : bytes) : string :=
  hex (take 4 r) ++ "-" ++ hex (take 2 (drop 4 r)) ++ "-" ++
  hex (take 2 (drop 6 r)) ++ "-" ++ hex (take 2 (drop 8 r)) ++ "-" ++
  hex (take 6 (drop 10 r)).

Global Instance byte_eq_dec : EqDecision byte := Byte.byte_eq_dec.

Definition seal (k iv pt : bytes) : option bytes := Some (pt ++ k ++ iv)%list.
Definition unseal (k iv ct : bytes) : option bytes :=
  let n := (length ct - length (k ++ iv)%list)%nat in
  if decide (drop n ct = (k ++ iv)%list) then Some (take n ct) else None.

Definition derive (salt : bytes) (iterations : N) (hash : string)
    (secret : bytes) (len : N) : bytes := (secret ++ salt)%list.
End Mock.

(** * Properties *)

(** ** Strings and property lists *)

Lemma string_app_cons (x : ascii) (a b : string) :
  String x a ++ b = String x (a ++ b).
Proof. reflexivity. Qed.

Lemma string_app_nil (b : string) : "" ++ b = b.
Proof. reflexivity. Qed.

Lemma string_app_assoc (a b c : string) : (a ++ b) ++ c = a ++ b ++ c.
Proof.
  induction a as [|x a IH]; [reflexivity|].
  rewrite !string_app_cons. now f_equal.
Qed.

Lemma string_app_inv_head (p a b : string) : p ++ a = p ++ b -> a = b.
Proof.
  induction p as [|x p IH]; intros E; [exact E|].
  rewrite !string_app_cons in E. injection E as E. auto.
Qed.

Lemma prefix_app (p s : string) : String.prefix p (p ++ s) = true.
Proof.
  induction p as [|x p IH]; [rewrite string_app_nil; now destruct s|].
  rewrite string_app_cons. cbn.
  destruct (ascii_dec x x); [exact IH | congruence].
Qed.

Lemma string_drop_app (p s : string) :
  string_drop (String.length p) (p ++ s) = s.
Proof.
  induction p as [|x p IH]; [now destruct s|].
  rewrite string_app_cons. exact IH.
Qed.

Lemma String_replace_unfold (pat repl s : string) :
  String_replace pat repl s =
  if String.prefix pat s then repl ++ string_drop (String.length pat) s
  else match s with
       | EmptyString => EmptyString
       | String c rest => String c (String_replace pat repl rest)
       end.
Proof. destruct s; reflexivity. Qed.

Lemma String_replace_prefix (p s : string) : String_replace p "" (p ++ s) = s.
Proof.
  rewrite String_replace_unfold, prefix_app, string_app_nil.
  apply string_drop_app.
Qed.

Lemma prop_lookup_assign (name : string) (v : json) props :
  prop_lookup name (prop_assign name v props) = Some v.
Proof.
  induction props as [|[k x] props IH]; simpl.
  - now rewrite String.eqb_refl.
  - destruct (String.eqb k name) eqn:E; simpl; rewrite E; [reflexivity | exact IH].
Qed.

Lemma key_of_spread (value : json) (k : string) :
  get_property "key" (spread_with_key value k) = Some (JStr k).
Proof. unfold spread_with_key, get_property. apply prop_lookup_assign. Qed.

Lemma truthy_Some (s : string) : truthy (Some s) = true <-> s <> "".
Proof.
  unfold truthy. destruct (String.eqb_spec s ""); simpl; split; congruence.
Qed.

Lemma truthy_false (item : option string) :
  truthy item = false <-> item = None \/ item = Some "".
Proof.
  destruct item as [s|]; simpl.
  - destruct (String.eqb_spec s ""); simpl; split; intros; subst; auto;
      try discriminate.
    destruct H as [?|[= ?]]; congruence.
  - split; auto.
Qed.

(** ** The monad *)

Ltac run :=
  cbv beta iota delta
    [bind ret throw lift lift_sum localStorage_getItem localStorage_setItem
     localStorage_removeItem localStorage_keys optional_call].

Lemma getRandomValues_enough (n : nat) (w : World) :
  (n <= length (entropy w))%nat ->
  getRandomValues n w =
  (Ret (take n (entropy w)), mkWorld (localStorage w) (drop n (entropy w))).
Proof. intros Hn. unfold getRandomValues. now rewrite decide_True. Qed.

Lemma getRandomValues_starved (n : nat) (w : World) :
  (length (entropy w) < n)%nat -> getRandomValues n w = (Starved, w).
Proof. intros Hn. unfold getRandomValues. rewrite decide_False; [done | lia]. Qed.

(** ** services/encryption-service.ts *)

Section Cipher.
Context `{Platform}.

(** The envelope text is never empty: [JSON.parse] accepts it. *)
Lemma envelope_text_nonempty (iv : bytes) (data : string) :
  JSON_stringify (envelope iv data) <> "".
Proof.
  intros E. pose proof (JSON_envelope iv data) as P.
  rewrite E, JSON_parse_empty in P. discriminate.
Qed.

Lemma byte_num_inj (a b : byte) : byte_num a = byte_num b -> a = b.
Proof.
  unfold byte_num. intros [= E%N2Z.inj].
  pose proof (Byte.of_to_N a) as Ha. rewrite E, Byte.of_to_N in Ha.
  congruence.
Qed.

Lemma Array_from_inj (u v : bytes) : Array_from u = Array_from v -> u = v.
Proof.
  unfold Array_from. intros [= E]. revert v E.
  induction u as [|a u IH]; intros [|b v] E; cbn in E;
    try discriminate; [reflexivity|].
  injection E as Hab E.
  f_equal; [apply byte_num_inj; unfold byte_num; congruence | auto].
Qed.

Lemma envelope_text_inj (iv1 iv2 : bytes) (d1 d2 : string) :
  JSON_stringify (envelope iv1 d1) = JSON_stringify (envelope iv2 d2) ->
  iv1 = iv2 /\ d1 = d2.
Proof.
  intros E. pose proof (JSON_envelope iv1 d1) as P1.
  rewrite E, JSON_envelope in P1. injection P1 as Hiv Hd.
  split; [|congruence].
  apply Array_from_inj. unfold Array_from. congruence.
Qed.

Lemma decrypt_run (encryptionKey : option CryptoKey) (encrypted : string)
    (w : World) :
  AESGCM.decrypt encryptionKey encrypted w =
  (decrypt_outcome encryptionKey encrypted, w).
Proof.
  unfold decrypt_outcome, AESGCM.decrypt.
  destruct encryptionKey as [k|]; [|reflexivity].
  destruct (JSON_parse encrypted) as [parsed|]; [|reflexivity].
  run. destruct (AESGCM.destructure_iv_data parsed) as [[iv data]| |];
    try reflexivity.
  cbn [fst snd]. destruct (Uint8Array_new iv); try reflexivity.
  cbn [lift_sum]. run.
  destruct (atob (ToString data)); [|reflexivity].
  destruct (subtle_decrypt _ _ _); reflexivity.
Qed.

Lemma decrypt_not_starved (encryptionKey : option CryptoKey)
    (encrypted : string) :
  decrypt_outcome encryptionKey encrypted <> Starved.
Proof.
  unfold decrypt_outcome, AESGCM.decrypt.
  destruct encryptionKey as [k|]; [|discriminate].
  destruct (JSON_parse encrypted) as [parsed|]; [|discriminate].
  run. destruct parsed; cbn [AESGCM.destructure_iv_data fst snd];
    try discriminate;
    (destruct (Uint8Array_new _); [discriminate|];
     destruct (atob _); [|discriminate];
     destruct (subtle_decrypt _ _ _); discriminate).
Qed.

Lemma decrypt_without_key (encrypted : string) :
  decrypt_outcome None encrypted = Throw AESGCM.not_initialized.
Proof. reflexivity. Qed.

Lemma decrypt_empty (encryptionKey : option CryptoKey) :
  exists e, decrypt_outcome encryptionKey "" = Throw e.
Proof.
  unfold decrypt_outcome, AESGCM.decrypt.
  destruct encryptionKey; [rewrite JSON_parse_empty|]; eexists; reflexivity.
Qed.

(** Shape of a successful [encrypt]. *)
Lemma encrypt_inv (encryptionKey : option CryptoKey) (data e : string)
    (w w' : World) :
  AESGCM.encrypt encryptionKey data w = (Ret e, w') ->
  exists k ct,
    encryptionKey = Some k /\
    (12 <= length (entropy w))%nat /\
    subtle_encrypt k (take 12 (entropy w)) (TextEncoder_encode data)
      = Some ct /\
    e = JSON_stringify
          (envelope (take 12 (entropy w)) (btoa (String_fromCharCode ct))) /\
    w' = mkWorld (localStorage w) (drop 12 (entropy w)).
Proof.
  unfold AESGCM.encrypt. destruct encryptionKey as [k|]; [|discriminate].
  run. unfold getRandomValues.
  destruct (decide (12 <= length (entropy w))%nat) as [Hn|]; [|discriminate].
  destruct (subtle_encrypt k _ _) as [ct|] eqn:Hct; [|discriminate].
  intros [= <- <-]. exists k, ct. auto.
Qed.

Lemma encrypt_total (k : CryptoKey) (data : string) (w : World) :
  (12 <= length (entropy w))%nat ->
  exists e, AESGCM.encrypt (Some k) data w =
            (Ret e, mkWorld (localStorage w) (drop 12 (entropy w))).
Proof.
  intros Hn. unfold AESGCM.encrypt. run.
  rewrite getRandomValues_enough by exact Hn.
  destruct (AES_GCM_encrypt_total k (take 12 (entropy w))
              (TextEncoder_encode data)) as [ct ->].
  { rewrite length_take. lia. }
  eexists; reflexivity.
Qed.

(** [encrypt] leaves the medium alone, whatever its outcome. *)
Lemma encrypt_frame (encryptionKey : option CryptoKey) (data : string)
    (w : World) :
  localStorage (snd (AESGCM.encrypt encryptionKey data w)) = localStorage w.
Proof.
  unfold AESGCM.encrypt. destruct encryptionKey as [k|]; [|reflexivity].
  run. unfold getRandomValues.
  destruct (decide _); [|reflexivity].
  destruct (subtle_encrypt _ _ _); reflexivity.
Qed.

(** [decrypt] undoes [encrypt] under the same key. *)
Lemma decrypt_envelope (k : CryptoKey) (iv ct : bytes) (V : json) :
  subtle_encrypt k iv (TextEncoder_encode (JSON_stringify V)) = Some ct ->
  decrypt_outcome (Some k)
    (JSON_stringify (envelope iv (btoa (String_fromCharCode ct))))
  = Ret (JSON_stringify V).
Proof.
  intros Hct. unfold decrypt_outcome, AESGCM.decrypt.
  rewrite JSON_envelope. run.
  change (AESGCM.destructure_iv_data (envelope iv ?d))
    with (Ret (Some (Array_from iv), Some (JStr d))).
  cbn [fst snd]. rewrite Uint8Array_of_Array, ToString_string, atob_btoa.
  cbn [lift_sum]. run.
  unfold charCodes, String_fromCharCode.
  rewrite list_byte_of_string_of_list_byte.
  rewrite (AES_GCM_decrypt_encrypt _ _ _ _ Hct), TextDecoder_TextEncoder.
  reflexivity.
Qed.
End Cipher.

(** ** lib/storage.ts *)

Section Store.
Context `{Platform}.

Lemma constructor_inv env svc prefix st :
  EncryptedStorage.constructor env svc prefix = Ret st ->
  st = {| EncryptedStorage.prefix := default "@edb" prefix;
          EncryptedStorage.encryptionService := Some svc |}.
Proof.
  unfold EncryptedStorage.constructor.
  repeat match goal with |- context [if ?b then _ else _] => destruct b end;
    congruence.
Qed.

Lemma constructed env encryptionKey prefix st :
  EncryptedStorage.constructor
    env (AESGCMEncryptionService encryptionKey) prefix = Ret st ->
  st = store encryptionKey prefix.
Proof. apply constructor_inv. Qed.

Variable encryptionKey : option CryptoKey.
Variable prefix : option string.
Local Abbreviation this := (store encryptionKey prefix).
Local Abbreviation storage_key := (EncryptedStorage.storage_key this).
Local Abbreviation table_prefix := (EncryptedStorage.table_prefix this).
Local Abbreviation read_value := (read_value encryptionKey).
Local Abbreviation write_record := (write_record encryptionKey prefix).
Local Abbreviation set_body := (set_body encryptionKey prefix).
Local Abbreviation table_keys := (table_keys encryptionKey prefix).
Local Abbreviation read_record := (read_record encryptionKey prefix).

Lemma storage_key_app (T k : string) : storage_key T k = table_prefix T ++ k.
Proof.
  unfold EncryptedStorage.storage_key, EncryptedStorage.table_prefix.
  now rewrite !string_app_assoc.
Qed.

Lemma storage_key_inj (T k1 k2 : string) :
  storage_key T k1 = storage_key T k2 -> k1 = k2.
Proof. rewrite !storage_key_app. apply string_app_inv_head. Qed.

Lemma exists_run (T k : string) (w : World) :
  EncryptedStorage.exists_ this T k w =
  (Ret (truthy (localStorage w !! storage_key T k)), w).
Proof. reflexivity. Qed.

(** *** [get] *)

Lemma get_run (T k : string) (w : World) :
  EncryptedStorage.get this T k w =
  (read_value (localStorage w !! storage_key T k), w).
Proof.
  unfold EncryptedStorage.get, read_value. run.
  destruct (negb (truthy _)); [reflexivity|].
  cbn [EncryptedStorage.encryptionService store decrypt AESGCMEncryptionService].
  rewrite decrypt_run.
  destruct (decrypt_outcome _ _); try reflexivity.
  destruct (JSON_parse _); reflexivity.
Qed.

(** *** [set] *)

Lemma set__S (fuel : nat) (T : string) (V : json) (key : option string) :
  EncryptedStorage.set_ (S fuel) this T V key =
  set_body (EncryptedStorage.set_ fuel this T V None) T V key.
Proof. reflexivity. Qed.

Lemma set_body_run (retry : M json) (T : string) (V : json)
    (key : option string) (w : World) :
  set_body retry T V key w =
  if truthy key then write_record T V (default "" key) w
  else if decide (16 <= length (entropy w))%nat then
    if truthy (localStorage w !! storage_key T (first_uuid w))
       && is_undefined key
    then retry (drawn 16 w)
    else write_record T V (first_uuid w) (drawn 16 w)
  else (Starved, w).
Proof.
  unfold set_body, or_else.
  destruct (truthy key) eqn:Hk.
  - destruct key as [k|]; [|discriminate]. cbn [is_undefined default].
    run. unfold EncryptedStorage.exists_. run.
    now rewrite andb_false_r.
  - unfold randomUUID, EncryptedStorage.exists_, getRandomValues. run.
    destruct (decide (16 <= length (entropy w))%nat); [|reflexivity].
    cbn [localStorage]. unfold first_uuid.
    destruct (_ && _); reflexivity.
Qed.

Lemma set_fuel (fuel1 fuel2 : nat) (T : string) (V : json)
    (key : option string) (w : World) :
  (length (entropy w) < fuel1)%nat -> (length (entropy w) < fuel2)%nat ->
  EncryptedStorage.set_ fuel1 this T V key w =
  EncryptedStorage.set_ fuel2 this T V key w.
Proof.
  revert fuel2 key w.
  induction fuel1 as [|fuel1 IH]; intros [|fuel2] key w H1 H2; try lia.
  rewrite !set__S, !set_body_run.
  destruct (truthy key); [reflexivity|].
  destruct (decide _) as [Hn|]; [|reflexivity].
  destruct (_ && _); [|reflexivity].
  apply IH; cbn; rewrite length_drop; lia.
Qed.

(** [set], with the retry written as the recursive call it is. *)
Lemma set_run (T : string) (V : json) (key : option string) (w : World) :
  EncryptedStorage.set this T V key w =
  if truthy key then write_record T V (default "" key) w
  else if decide (16 <= length (entropy w))%nat then
    if truthy (localStorage w !! storage_key T (first_uuid w))
       && is_undefined key
    then EncryptedStorage.set this T V None (drawn 16 w)
    else write_record T V (first_uuid w) (drawn 16 w)
  else (Starved, w).
Proof.
  unfold EncryptedStorage.set at 1. rewrite set__S, set_body_run.
  destruct (truthy key); [reflexivity|].
  destruct (decide _) as [Hn|]; [|reflexivity].
  destruct (_ && _); [|reflexivity].
  unfold EncryptedStorage.set.
  apply set_fuel; cbn; rewrite length_drop; lia.
Qed.

Lemma write_record_inv (T : string) (V : json) (finalKey : string)
    (w w' : World) (stored : json) :
  write_record T V finalKey w = (Ret stored, w') ->
  exists k ct,
    encryptionKey = Some k /\
    (12 <= length (entropy w))%nat /\
    subtle_encrypt k (take 12 (entropy w))
      (TextEncoder_encode (JSON_stringify V)) = Some ct /\
    stored = spread_with_key V finalKey /\
    w' = mkWorld
           (<[storage_key T finalKey :=
                JSON_stringify
                  (envelope (take 12 (entropy w))
                            (btoa (String_fromCharCode ct)))]>
              (localStorage w))
           (drop 12 (entropy w)).
Proof.
  unfold write_record. run.
  destruct (AESGCM.encrypt _ _ w) as [[e| |] w1] eqn:He; try discriminate.
  intros [= <- <-].
  apply encrypt_inv in He as (k & ct & -> & Hn & Hct & -> & ->).
  exists k, ct. auto.
Qed.

Lemma write_record_total (k : CryptoKey) (T : string) (V : json)
    (finalKey : string) (w : World) :
  encryptionKey = Some k -> (12 <= length (entropy w))%nat ->
  exists w', write_record T V finalKey w =
             (Ret (spread_with_key V finalKey), w').
Proof.
  intros Hk Hn. unfold write_record. rewrite Hk. run.
  destruct (encrypt_total k (JSON_stringify V) w Hn) as [e ->].
  eexists; reflexivity.
Qed.

(** A [set] that does not return has written nothing. *)
Lemma write_record_frame (T : string) (V : json) (finalKey : string)
    (w w' : World) (o : outcome json) :
  write_record T V finalKey w = (o, w') ->
  (forall stored, o <> Ret stored) ->
  localStorage w' = localStorage w.
Proof.
  unfold write_record. run.
  pose proof (encrypt_frame encryptionKey (JSON_stringify V) w) as Hf.
  destruct (AESGCM.encrypt _ _ w) as [[e| |] w1]; cbn [snd] in Hf;
    intros [= <- <-] Hno; try exact Hf.
  now destruct (Hno (spread_with_key V finalKey)).
Qed.

Lemma set_frame (T : string) (V : json) (key : option string)
    (w w' : World) (o : outcome json) :
  EncryptedStorage.set this T V key w = (o, w') ->
  (forall stored, o <> Ret stored) ->
  localStorage w' = localStorage w.
Proof.
  remember (length (entropy w)) as n eqn:Hn. revert w Hn key.
  induction n as [n IH] using lt_wf_ind. intros w Hn key.
  rewrite set_run. destruct (truthy key); [apply write_record_frame|].
  destruct (decide _) as [H16|]; [|now intros [= <- <-]].
  destruct (_ && _).
  - intros Hw Hno.
    apply (IH (length (entropy (drawn 16 w)))) in Hw; try done.
    cbn. rewrite length_drop. lia.
  - intros Hw Hno. now apply write_record_frame in Hw.
Qed.

(** Where a returning [set] wrote, and under which key. *)
Lemma set_inv (T : string) (V : json) (key : option string)
    (w w' : World) (stored : json) :
  EncryptedStorage.set this T V key w = (Ret stored, w') ->
  exists finalKey w1,
    write_record T V finalKey w1 = (Ret stored, w') /\
    localStorage w1 = localStorage w /\
    (exists n, entropy w1 = drop n (entropy w)) /\
    (forall k, key = Some k -> k <> "" -> finalKey = k /\ w1 = w) /\
    (key = Some "" ->
       finalKey = first_uuid w /\ w1 = drawn 16 w /\
       (16 <= length (entropy w))%nat) /\
    (key = None ->
       truthy (localStorage w !! storage_key T finalKey) = false) /\
    (truthy key = false -> finalKey <> "").
Proof.
  remember (length (entropy w)) as n eqn:Hn. revert w Hn key.
  induction n as [n IH] using lt_wf_ind. intros w Hn key.
  rewrite set_run. destruct (truthy key) eqn:Hk.
  - destruct key as [k|]; [|discriminate]. cbn [default]. intros Hw.
    exists k, w. repeat split; try assumption;
      try (exists 0%nat; reflexivity); intros; simplify_eq/=; done.
  - destruct (decide _) as [H16|]; [|discriminate].
    destruct (truthy (localStorage w !! _)) eqn:Hfound;
      destruct key as [k|]; cbn [andb is_undefined]; intros Hw.
    + apply truthy_false in Hk as [[=]|[= ->]].
      exists (first_uuid w), (drawn 16 w).
      repeat split; try assumption; try (exists 16%nat; reflexivity);
        intros; simplify_eq/=; try done. apply UUID_nonempty.
    + apply (IH (length (entropy (drawn 16 w)))) in Hw
          as (fk & w1 & Hwr & Hls & [m Hm] & _ & _ & Hnone & Hne);
        [|cbn; rewrite length_drop; lia|reflexivity].
      exists fk, w1. repeat split; try assumption;
        intros; simplify_eq/=; try done.
      exists (16 + m)%nat. rewrite Hm. now rewrite drop_drop.
    + apply truthy_false in Hk as [[=]|[= ->]].
      exists (first_uuid w), (drawn 16 w).
      repeat split; try assumption; try (exists 16%nat; reflexivity);
        intros; simplify_eq/=; try done. apply UUID_nonempty.
    + exists (first_uuid w), (drawn 16 w).
      repeat split; try assumption; try (exists 16%nat; reflexivity);
        intros; simplify_eq/=; try done. apply UUID_nonempty.
Qed.

(** The medium after a returning [set]: one entry written, holding the
    envelope of the serialized value under a fresh 12-byte nonce. *)
Lemma set_effect (T : string) (V : json) (key : option string)
    (w w' : World) (stored : json) :
  EncryptedStorage.set this T V key w = (Ret stored, w') ->
  exists finalKey k iv ct,
    stored = spread_with_key V finalKey /\
    encryptionKey = Some k /\
    length iv = 12%nat /\
    subtle_encrypt k iv (TextEncoder_encode (JSON_stringify V)) = Some ct /\
    localStorage w' =
      <[storage_key T finalKey :=
          JSON_stringify (envelope iv (btoa (String_fromCharCode ct)))]>
        (localStorage w) /\
    (forall k', key = Some k' -> k' <> "" -> finalKey = k') /\
    (key = None ->
       truthy (localStorage w !! storage_key T finalKey) = false) /\
    (truthy key = false -> finalKey <> "").
Proof.
  intros Hset.
  apply set_inv in Hset
    as (fk & w1 & Hwr & Hls & _ & Hexp & _ & Hnone & Hne).
  apply write_record_inv in Hwr as (k & ct & Hk & Hn & Hct & -> & ->).
  exists fk, k, (take 12 (entropy w1)), ct.
  repeat split; try assumption.
  - rewrite length_take. lia.
  - cbn. now rewrite Hls.
  - intros k' Hk' Hk''. now apply (Hexp k').
Qed.

(** Reading back what [set] wrote. *)
Lemma read_envelope (k : CryptoKey) (iv ct : bytes) (V : json) :
  encryptionKey = Some k ->
  subtle_encrypt k iv (TextEncoder_encode (JSON_stringify V)) = Some ct ->
  read_value
    (Some (JSON_stringify (envelope iv (btoa (String_fromCharCode ct))))) =
  match JSON_parse (JSON_stringify V) with
  | None => Throw SyntaxError
  | Some parsed => Ret parsed
  end.
Proof.
  intros Hk Hct. unfold read_value.
  assert (truthy (Some (JSON_stringify
            (envelope iv (btoa (String_fromCharCode ct))))) = true) as ->.
  { apply truthy_Some, envelope_text_nonempty. }
  cbn [negb]. change (default "" (Some ?x)) with x.
  rewrite Hk, (decrypt_envelope _ _ _ _ Hct).
  reflexivity.
Qed.

(** *** [getAll] *)

Lemma getAll_loop_run (T : string) (keys : list string)
    (results : list json) (w : World) :
  EncryptedStorage.getAll_loop this T keys results w =
  (collect (map (read_record T (localStorage w)) keys) results, w).
Proof.
  revert results. induction keys as [|key keys IH]; intros results;
    [reflexivity|].
  cbn [EncryptedStorage.getAll_loop map collect]. unfold read_record at 1.
  run. destruct (truthy (localStorage w !! key)); [|apply IH].
  cbn [EncryptedStorage.encryptionService store decrypt AESGCMEncryptionService].
  rewrite decrypt_run.
  destruct (decrypt_outcome _ _); try reflexivity.
  destruct (JSON_parse _); [apply IH | reflexivity].
Qed.

Lemma getAll_run (T : string) (w : World) :
  EncryptedStorage.getAll this T w =
  (collect (map (read_record T (localStorage w))
                (table_keys T (localStorage w))) [], w).
Proof. unfold EncryptedStorage.getAll. run. apply getAll_loop_run. Qed.

Lemma filter_run (T : string) (p : json -> bool) (w : World) :
  EncryptedStorage.filter this T p w =
  (match fst (EncryptedStorage.getAll this T w) with
   | Ret allItems => Ret (List.filter p allItems)
   | Throw e => Throw e
   | Starved => Starved
   end, w).
Proof.
  unfold EncryptedStorage.filter. run. rewrite getAll_run. cbn [fst].
  destruct (collect _ _); reflexivity.
Qed.

Lemma read_record_not_starved (T : string) (m : gmap string string)
    (key : string) : read_record T m key <> Starved.
Proof.
  unfold read_record. destruct (truthy _); [|discriminate].
  pose proof (decrypt_not_starved encryptionKey (default "" (m !! key))).
  destruct (decrypt_outcome _ _); try congruence.
  destruct (JSON_parse _); discriminate.
Qed.

(** A scan with a failing turn throws; it throws the exception of the
    first failing turn. *)
Lemma collect_throws (turns : list (outcome (option json)))
    (results : list json) (e : exn) :
  Throw e ∈ turns -> Starved ∉ turns ->
  exists e', collect turns results = Throw e' /\ Throw e' ∈ turns.
Proof.
  revert results. induction turns as [|t turns IH]; intros results Hin Hst.
  - inversion Hin.
  - destruct t as [[r|]|e0|].
    + cbn [collect]. apply elem_of_cons in Hin as [[=]|Hin].
      destruct (IH (results ++ [r])%list Hin) as (e' & He' & Hin');
        [set_solver|]. exists e'. split; [done | set_solver].
    + cbn [collect]. apply elem_of_cons in Hin as [[=]|Hin].
      destruct (IH results Hin) as (e' & He' & Hin');
        [set_solver|]. exists e'. split; [done | set_solver].
    + exists e0. split; [done | apply elem_of_cons; auto].
    + destruct Hst. apply elem_of_cons; auto.
Qed.

Lemma collect_first_throw (before after : list (outcome (option json)))
    (results : list json) (e : exn) :
  Forall (fun t => exists r, t = Ret r) before ->
  collect (before ++ Throw e :: after) results = Throw e.
Proof.
  intros Hb. revert results.
  induction Hb as [|t before [r ->] _ IH]; intros results; [reflexivity|].
  destruct r; cbn [app collect]; apply IH.
Qed.

(** A turn that yields nothing can be dropped from the scan. *)
Lemma collect_skip (before after : list (outcome (option json)))
    (results : list json) :
  collect (before ++ Ret None :: after) results =
  collect (before ++ after) results.
Proof.
  revert results. induction before as [|t before IH]; intros results;
    [reflexivity|].
  destruct t as [[r|]|e|]; cbn [app collect]; try reflexivity; apply IH.
Qed.

(** Keys whose turn yields nothing can be filtered out beforehand. *)
Lemma collect_without (T : string) (m : gmap string string) (ck : string)
    (keys : list string) (results : list json) :
  read_record T m ck = Ret None ->
  collect (map (read_record T m) keys) results =
  collect
    (map (read_record T m)
         (List.filter (fun key => negb (String.eqb key ck)) keys))
    results.
Proof.
  intros Hck. revert results.
  induction keys as [|key keys IH]; intros results; [reflexivity|].
  cbn [List.filter map]. destruct (String.eqb_spec key ck) as [->|Hne].
  - cbn [negb collect]. rewrite Hck. apply IH.
  - cbn [negb map collect].
    destruct (read_record T m key) as [[r|]| |]; try reflexivity; apply IH.
Qed.
(** *** Further facts on [set] *)

Lemma set_explicit_run (T : string) (V : json) (k : string) (w : World) :
  k <> "" ->
  EncryptedStorage.set this T V (Some k) w = write_record T V k w.
Proof.
  intros Hk. rewrite set_run.
  now rewrite (proj2 (truthy_Some k) Hk).
Qed.

Lemma set_empty_key_run (T : string) (V : json) (w : World) :
  EncryptedStorage.set this T V (Some "") w =
  if decide (16 <= length (entropy w))%nat
  then write_record T V (first_uuid w) (drawn 16 w)
  else (Starved, w).
Proof.
  rewrite set_run. cbn [truthy String.eqb negb is_undefined].
  now rewrite andb_false_r.
Qed.

Lemma set_omitted_run (T : string) (V : json) (w : World) :
  (16 <= length (entropy w))%nat ->
  EncryptedStorage.set this T V None w =
  if truthy (localStorage w !! storage_key T (first_uuid w))
  then EncryptedStorage.set this T V None (drawn 16 w)
  else EncryptedStorage.set this T V (Some (first_uuid w)) (drawn 16 w).
Proof.
  intros Hn. rewrite set_run. cbn [truthy is_undefined].
  rewrite decide_True by exact Hn. rewrite andb_true_r.
  destruct (truthy (localStorage w !! _)); [reflexivity|].
  symmetry. apply set_explicit_run, UUID_nonempty.
Qed.

(** After a returning [set] the record is found by [exists]. *)
Lemma written_is_truthy (iv : bytes) (data : string) (ck : string)
    (m : gmap string string) :
  truthy (<[ck := JSON_stringify (envelope iv data)]> m !! ck) = true.
Proof. rewrite lookup_insert_eq. apply truthy_Some, envelope_text_nonempty. Qed.

(** One [set] after the other, each without a key: the keys returned are
    pairwise distinct, none of them was in use before, every value is read
    back under its key at the end, and no other entry of the medium has
    changed. *)
Lemma set_in_turn_inv (T : string) (Vs : list json) (w w' : World)
    (stored : list json) :
  Forall JSON_serializable Vs ->
  set_in_turn this T Vs w = (Ret stored, w') ->
  exists ks,
    length ks = length Vs /\
    stored = zip_with spread_with_key Vs ks /\
    NoDup ks /\
    Forall (fun k => truthy (localStorage w !! storage_key T k) = false) ks /\
    Forall2 (fun V k => EncryptedStorage.get this T k w' = (Ret V, w')) Vs ks /\
    (forall ck, (forall k, k ∈ ks -> ck <> storage_key T k) ->
                localStorage w' !! ck = localStorage w !! ck).
Proof.
  intros HVs. revert w w' stored.
  induction HVs as [|V Vs HV HVs IH]; intros w w' stored.
  - intros [= <- <-]. exists []. repeat split; constructor.
  - cbn [set_in_turn]. run.
    destruct (EncryptedStorage.set this T V None w) as [[s| |] w1] eqn:Hset;
      try discriminate.
    destruct (set_in_turn this T Vs w1) as [[o| |] w2]
      eqn:Hrest; try discriminate.
    intros [= <- <-].
    apply set_effect in Hset
      as (fk & k & iv & ct & -> & Hk & _ & Hct & Hls & _ & Hfresh & _).
    specialize (Hfresh eq_refl).
    apply IH in Hrest as (ks & Hlen & -> & Hnd & Hnew & Hget & Hframe).
    assert (fk ∉ ks) as Hfk.
    { intros Hin. rewrite Forall_forall in Hnew. apply Hnew in Hin.
      rewrite Hls, written_is_truthy in Hin. discriminate. }
    assert (localStorage w2 !! storage_key T fk =
            localStorage w1 !! storage_key T fk) as Hkept.
    { apply Hframe. intros k' Hk' E%storage_key_inj. congruence. }
    exists (fk :: ks). repeat split.
    + cbn. now rewrite Hlen.
    + now constructor.
    + constructor; [exact Hfresh|].
      rewrite Forall_forall in Hnew |- *. intros k' Hk'.
      rewrite <- (Hnew k' Hk'), Hls. f_equal. symmetry.
      apply lookup_insert_ne. intros E%storage_key_inj. congruence.
    + constructor; [|exact Hget].
      rewrite get_run, Hkept, Hls, lookup_insert_eq.
      rewrite (read_envelope _ _ _ _ Hk Hct). now rewrite HV.
    + intros ck Hck. rewrite Hframe, Hls.
      * apply lookup_insert_ne. intros E. apply (Hck fk); [|done].
        apply elem_of_cons; auto.
      * intros k' Hk'. apply Hck. apply elem_of_cons; auto.
Qed.

(** *** Further facts on [getAll] *)

Lemma elem_of_table_keys (T : string) (m : gmap string string) (ck : string) :
  ck ∈ table_keys T m <->
  is_Some (m !! ck) /\ startsWith ck (table_prefix T) = true.
Proof.
  unfold table_keys, Object_keys.
  rewrite list_elem_of_In, filter_In, <- list_elem_of_In, list_elem_of_fmap.
  split.
  - intros [[[k v] [-> Hkv%elem_of_map_to_list]] Hp]. eauto.
  - intros [[v Hv] Hp]. split; [|exact Hp].
    exists (ck, v). split; [reflexivity | now apply elem_of_map_to_list].
Qed.

Lemma collect_Ret_inv (turns : list (outcome (option json)))
    (results rs : list json) :
  collect turns results = Ret rs ->
  Forall (fun t => exists r, t = Ret r) turns.
Proof.
  revert results. induction turns as [|t turns IH]; intros results;
    [constructor|].
  destruct t as [[r|]| |]; cbn [collect]; try discriminate;
    intros Hc; constructor; eauto.
Qed.

Lemma read_record_throws (T : string) (m : gmap string string)
    (ck item : string) (e : exn) :
  m !! ck = Some item -> item <> "" ->
  decrypt_outcome encryptionKey item = Throw e ->
  read_record T m ck = Throw e.
Proof.
  intros Hitem Hne%truthy_Some Hdec. unfold read_record.
  rewrite Hitem, Hne. change (default "" (Some item)) with item.
  now rewrite Hdec.
Qed.
(** *** Table names that contain the separator *)

Lemma storage_key_nested (B r k : string) :
  storage_key (B ++ "_" ++ r) k = storage_key B (r ++ "_" ++ k).
Proof.
  unfold EncryptedStorage.storage_key. now rewrite !string_app_assoc.
Qed.

Lemma string_app_neq (a : string) (c : ascii) (b : string) :
  a ++ String c b <> a.
Proof.
  induction a as [|x a IH]; [discriminate|].
  rewrite string_app_cons. intros [= E]. contradiction.
Qed.

(** Table names without the separator do not share storage keys: no
    storage key of a table [A] is among the keys [getAll] scans for a
    different table [B]. *)
Lemma prefix_app_cancel (p x y : string) :
  String.prefix (p ++ x) (p ++ y) = String.prefix x y.
Proof.
  induction p as [|c p IH]; [reflexivity|].
  rewrite !string_app_cons. cbn. destruct (ascii_dec c c); [exact IH | done].
Qed.

Lemma prefix_cons (a b : ascii) (s t : string) :
  String.prefix (String a s) (String b t) =
  if ascii_dec a b then String.prefix s t else false.
Proof. cbn. destruct (ascii_dec a b); reflexivity. Qed.

Lemma prefix_upto_separator (A B k : string) :
  has_separator A = false -> has_separator B = false ->
  String.prefix (B ++ "_") (A ++ "_" ++ k) = true -> A = B.
Proof.
  revert A. induction B as [|b B IH]; intros [|a A] HA HB Hp;
    rewrite ?string_app_nil, ?string_app_cons, ?prefix_cons in Hp;
    cbn [has_separator] in HA, HB.
  - reflexivity.
  - destruct (ascii_dec "_" a) as [<-|]; [|discriminate].
    rewrite Ascii.eqb_refl in HA. discriminate.
  - destruct (ascii_dec b "_") as [->|]; [|discriminate].
    rewrite Ascii.eqb_refl in HB. discriminate.
  - destruct (ascii_dec b a) as [->|]; [|discriminate].
    apply orb_false_elim in HA as [_ HA], HB as [_ HB].
    f_equal. now apply IH.
Qed.

Lemma tables_without_separator_isolated (A B k : string)
    (m : gmap string string) :
  has_separator A = false -> has_separator B = false -> A <> B ->
  storage_key A k ∉ table_keys B m.
Proof.
  intros HA HB Hne [_ Hp]%elem_of_table_keys. apply Hne.
  apply (prefix_upto_separator A B k HA HB).
  rewrite <- (prefix_app_cancel (EncryptedStorage.prefix this ++ "_")).
  unfold startsWith, EncryptedStorage.storage_key,
    EncryptedStorage.table_prefix in Hp.
  now rewrite !string_app_assoc.
Qed.

Lemma getAll_single (T ck : string) (iv ct : bytes) (k : CryptoKey)
    (V : json) (rest : string) (w : World) :
  encryptionKey = Some k ->
  subtle_encrypt k iv (TextEncoder_encode (JSON_stringify V)) = Some ct ->
  JSON_serializable V ->
  ck = table_prefix T ++ rest ->
  localStorage w =
    <[ck := JSON_stringify (envelope iv (btoa (String_fromCharCode ct)))]> ∅ ->
  EncryptedStorage.getAll this T w = (Ret [spread_with_key V rest], w).
Proof.
  intros Hk Hct HV -> Hls. rewrite getAll_run, Hls. f_equal.
  unfold table_keys, Object_keys.
  rewrite insert_empty, map_to_list_singleton.
  cbn [fmap list_fmap fst List.filter]. unfold startsWith.
  rewrite prefix_app. cbn [map collect]. unfold read_record.
  rewrite lookup_singleton_eq.
  assert (truthy (Some (JSON_stringify
            (envelope iv (btoa (String_fromCharCode ct))))) = true) as ->.
  { apply truthy_Some, envelope_text_nonempty. }
  change (default "" (Some ?x)) with x.
  rewrite Hk, (decrypt_envelope _ _ _ _ Hct), HV, String_replace_prefix.
  reflexivity.
Qed.
End Store.

(** ** Records in the medium *)

Section Records.
Context `{Platform}.
Variable encryptionKey : option CryptoKey.
Variable prefix : option string.
Local Abbreviation this := (store encryptionKey prefix).
Local Abbreviation storage_key := (EncryptedStorage.storage_key this).
Local Abbreviation table_prefix := (EncryptedStorage.table_prefix this).
Local Abbreviation read_value := (read_value encryptionKey).
Local Abbreviation table_keys := (table_keys encryptionKey prefix).
Local Abbreviation read_record := (read_record encryptionKey prefix).
Local Abbreviation holds_record := (holds_record encryptionKey prefix).

(** [decrypt] undoes [encrypt] on every text that UTF-8 carries. *)
Lemma decrypt_envelope_text (k : CryptoKey) (iv ct : bytes) (data : string) :
  TextDecoder_decode (TextEncoder_encode data) = data ->
  subtle_encrypt k iv (TextEncoder_encode data) = Some ct ->
  decrypt_outcome (Some k)
    (JSON_stringify (envelope iv (btoa (String_fromCharCode ct))))
  = Ret data.
Proof.
  intros Htext Hct. unfold decrypt_outcome, AESGCM.decrypt.
  rewrite JSON_envelope. run.
  change (AESGCM.destructure_iv_data (envelope iv ?d))
    with (Ret (Some (Array_from iv), Some (JStr d))).
  cbn [fst snd]. rewrite Uint8Array_of_Array, ToString_string, atob_btoa.
  cbn [lift_sum]. run.
  unfold charCodes, String_fromCharCode.
  rewrite list_byte_of_string_of_list_byte.
  rewrite (AES_GCM_decrypt_encrypt _ _ _ _ Hct), Htext.
  reflexivity.
Qed.

Lemma holds_record_truthy (m : gmap string string) (T : string) (V : json)
    (k : string) :
  holds_record m T V k -> truthy (m !! storage_key T k) = true.
Proof.
  intros (c & iv & ct & _ & _ & ->).
  apply truthy_Some, envelope_text_nonempty.
Qed.

Lemma read_value_of_record (m : gmap string string) (T : string) (V : json)
    (k : string) :
  holds_record m T V k -> JSON_serializable V ->
  read_value (m !! storage_key T k) = Ret V.
Proof.
  intros (c & iv & ct & Hc & Hct & ->) HV.
  rewrite (read_envelope _ _ _ _ _ Hc Hct). now rewrite HV.
Qed.

Lemma read_record_of_record (m : gmap string string) (T : string) (V : json)
    (k : string) :
  holds_record m T V k -> JSON_serializable V ->
  read_record T m (storage_key T k) = Ret (Some (spread_with_key V k)).
Proof.
  intros Hrec HV. pose proof (holds_record_truthy _ _ _ _ Hrec) as Ht.
  destruct Hrec as (c & iv & ct & Hc & Hct & Hm).
  unfold read_record. rewrite Ht, Hm.
  change (default "" (Some ?x)) with x.
  rewrite Hc, (decrypt_envelope _ _ _ _ Hct), HV.
  now rewrite storage_key_app, String_replace_prefix.
Qed.

(** What a returning [set] leaves in the medium. *)
Lemma set_records (T : string) (V : json) (key : option string)
    (w w' : World) (stored : json) :
  EncryptedStorage.set this T V key w = (Ret stored, w') ->
  exists k,
    stored = spread_with_key V k /\
    holds_record (localStorage w') T V k /\
    (forall ck, ck <> storage_key T k ->
                localStorage w' !! ck = localStorage w !! ck) /\
    (key = None -> truthy (localStorage w !! storage_key T k) = false) /\
    (forall k', key = Some k' -> k' <> "" -> k = k').
Proof.
  intros (fk & c & iv & ct & -> & Hc & _ & Hct & Hls & Hexp & Hfresh & _)
    %set_effect.
  exists fk. split; [reflexivity|]. split; [|split; [|split]].
  - exists c, iv, ct. rewrite Hls, lookup_insert_eq. auto.
  - intros ck Hck. rewrite Hls. now apply lookup_insert_ne.
  - exact Hfresh.
  - intros k' Hk' Hne. now apply Hexp.
Qed.

Lemma set_in_turn_records (T : string) (Vs : list json) (w w' : World)
    (stored : list json) :
  set_in_turn this T Vs w = (Ret stored, w') ->
  exists ks,
    stored = zip_with spread_with_key Vs ks /\
    NoDup ks /\
    Forall (fun k => truthy (localStorage w !! storage_key T k) = false) ks /\
    Forall2 (holds_record (localStorage w') T) Vs ks /\
    (forall ck, (forall k, k ∈ ks -> ck <> storage_key T k) ->
                localStorage w' !! ck = localStorage w !! ck).
Proof.
  revert w w' stored. induction Vs as [|V Vs IH]; intros w w' stored.
  - intros [= <- <-]. exists []. repeat split; constructor.
  - cbn [set_in_turn]. run.
    destruct (EncryptedStorage.set this T V None w) as [[s| |] w1] eqn:Hset;
      try discriminate.
    destruct (set_in_turn this T Vs w1) as [[o| |] w2] eqn:Hrest;
      try discriminate.
    intros [= <- <-].
    apply set_records in Hset as (fk & -> & Hrec & Hframe1 & Hfresh & _).
    specialize (Hfresh eq_refl).
    apply IH in Hrest as (ks & -> & Hnd & Hnew & Hrecs & Hframe).
    assert (fk ∉ ks) as Hfk.
    { intros Hin. rewrite Forall_forall in Hnew. apply Hnew in Hin.
      rewrite (holds_record_truthy _ _ _ _ Hrec) in Hin. discriminate. }
    assert (forall k, k ∈ ks -> storage_key T fk <> storage_key T k) as Hsep.
    { intros k Hk E%storage_key_inj. congruence. }
    exists (fk :: ks). split; [reflexivity|]. split; [now constructor|].
    split; [|split].
    + constructor; [exact Hfresh|].
      rewrite Forall_forall in Hnew |- *. intros k Hk.
      rewrite <- (Hnew k Hk). symmetry. f_equal. apply Hframe1.
      intros E. apply (Hsep k Hk). now symmetry.
    + constructor; [|exact Hrecs].
      destruct Hrec as (c & iv & ct & Hc & Hct & Hm).
      exists c, iv, ct. rewrite (Hframe _ Hsep). auto.
    + intros ck Hck. rewrite Hframe, Hframe1; [reflexivity| |].
      * apply Hck, elem_of_cons. auto.
      * intros k Hk. apply Hck, elem_of_cons. auto.
Qed.

(** The keys scanned by [getAll] carry no duplicate. *)
Lemma table_keys_NoDup (T : string) (m : gmap string string) :
  NoDup (table_keys T m).
Proof.
  unfold table_keys, Object_keys.
  apply NoDup_ListNoDup, List.NoDup_filter, NoDup_ListNoDup.
  apply NoDup_fst_map_to_list.
Qed.

Lemma collect_map_Some {A} (g : A -> json) (l : list A) (results : list json) :
  collect (map (fun x => Ret (Some (g x))) l) results
  = Ret (results ++ map g l)%list.
Proof.
  revert results. induction l as [|x l IH]; intros results; cbn [map collect].
  - now rewrite app_nil_r.
  - rewrite IH. now rewrite <- app_assoc.
Qed.

Lemma collect_elem (turns : list (outcome (option json)))
    (results rs : list json) (r : json) :
  collect turns results = Ret rs -> r ∈ rs ->
  r ∈ results \/ Ret (Some r) ∈ turns.
Proof.
  revert results. induction turns as [|t turns IH]; intros results.
  - intros [= <-]. auto.
  - destruct t as [[x|]| |]; cbn [collect]; try discriminate; intros Hc Hr.
    + destruct (IH _ Hc Hr) as [[Hin|Hx]%elem_of_app|Hin].
      * auto.
      * apply list_elem_of_singleton in Hx as ->.
        right. apply elem_of_cons. auto.
      * right. apply elem_of_cons. auto.
    + destruct (IH _ Hc Hr) as [Hin|Hin]; [auto|].
      right. apply elem_of_cons. auto.
Qed.

Lemma prefix_split (p s : string) :
  String.prefix p s = true -> exists r, s = p ++ r.
Proof.
  revert s. induction p as [|a p IH]; intros s.
  - exists s. reflexivity.
  - destruct s as [|b s]; [discriminate|]. rewrite prefix_cons.
    destruct (ascii_dec a b) as [->|]; [|discriminate].
    intros [r ->]%IH. exists r. reflexivity.
Qed.

(** Where a record returned by [getAll] comes from: its key addresses,
    through the storage key of the table, the entry it was read from. *)
Lemma read_record_origin (T : string) (m : gmap string string)
    (ck : string) (r : json) :
  startsWith ck (table_prefix T) = true ->
  read_record T m ck = Ret (Some r) ->
  exists k V,
    r = spread_with_key V k /\ storage_key T k = ck /\
    truthy (m !! ck) = true /\ read_value (m !! ck) = Ret V.
Proof.
  intros [k ->]%prefix_split. unfold read_record, read_value.
  destruct (truthy (m !! _)) eqn:Ht; [|discriminate].
  destruct (decrypt_outcome _ _) as [d| |]; try discriminate.
  destruct (JSON_parse d) as [V|]; [|discriminate].
  rewrite String_replace_prefix. intros [= <-].
  exists k, V. rewrite storage_key_app. auto.
Qed.

(** [getAll] on a medium whose entries for the table are the records
    [(V, k)] of two lists: the records, in the order of the medium. *)
Lemma collect_records (T : string) (m : gmap string string)
    (Vs : list json) (ks : list string) :
  Forall JSON_serializable Vs ->
  Forall2 (holds_record m T) Vs ks ->
  NoDup ks ->
  (forall ck, ck ∈ table_keys T m -> exists k, k ∈ ks /\ ck = storage_key T k) ->
  exists rs,
    collect (map (read_record T m) (table_keys T m)) [] = Ret rs /\
    rs ≡ₚ zip_with spread_with_key Vs ks.
Proof.
  intros HVs Hrecs Hnd Hall.
  pose (g := fun ck => match read_record T m ck with
                       | Ret (Some r) => r
                       | _ => JNull
                       end).
  assert (forall V k, holds_record m T V k -> JSON_serializable V ->
                      g (storage_key T k) = spread_with_key V k) as Hg.
  { intros V k Hrec HV. unfold g.
    now rewrite (read_record_of_record _ _ _ _ Hrec HV). }
  assert (forall k, k ∈ ks ->
            exists V, holds_record m T V k /\ JSON_serializable V) as Hks.
  { clear Hall Hnd Hg. induction Hrecs as [|V k Vs ks Hrec Hrecs IH];
      intros k' Hk'; [inversion Hk'|].
    apply Forall_cons in HVs as [HV HVs].
    apply elem_of_cons in Hk' as [->|Hk']; eauto. }
  assert (table_keys T m ≡ₚ map (storage_key T) ks) as Hperm.
  { apply NoDup_Permutation.
    - apply table_keys_NoDup.
    - change (map (storage_key T) ks) with (storage_key T <$> ks).
      apply NoDup_fmap_2_strong; [|exact Hnd].
      intros a b _ _. apply storage_key_inj.
    - intros ck. split.
      + intros (k & Hk & ->)%Hall.
        apply list_elem_of_In, in_map, list_elem_of_In, Hk.
      + intros (k & <- & Hk%list_elem_of_In)%list_elem_of_In%in_map_iff.
        destruct (Hks k Hk) as (V & Hrec & _).
        apply elem_of_table_keys. split.
        * destruct Hrec as (? & ? & ? & _ & _ & ->). eauto.
        * unfold startsWith. rewrite storage_key_app. apply prefix_app. }
  exists (map g (table_keys T m)). split.
  - transitivity
      (collect (map (fun ck => Ret (Some (g ck))) (table_keys T m)) []);
      [|apply (collect_map_Some g _ [])].
    f_equal. apply map_ext_in.
    intros ck (k & Hk & ->)%list_elem_of_In%Hall.
    destruct (Hks k Hk) as (V & Hrec & HV).
    rewrite (Hg V k Hrec HV). apply read_record_of_record; assumption.
  - rewrite (Permutation_map g Hperm), map_map.
    clear Hall Hnd Hperm Hks.
    induction Hrecs as [|V k Vs ks Hrec Hrecs IH]; [reflexivity|].
    apply Forall_cons in HVs as [HV HVs]. cbn [map zip_with].
    rewrite (Hg V k Hrec HV). constructor. now apply IH.
Qed.

Lemma prop_lookup_assign_ne (name other : string) (v : json) props :
  other <> name ->
  prop_lookup other (prop_assign name v props) = prop_lookup other props.
Proof.
  intros Hne. induction props as [|[k x] props IH]; cbn.
  - destruct (String.eqb_spec name other); [congruence | reflexivity].
  - destruct (String.eqb_spec k name) as [->|Hk]; cbn.
    + destruct (String.eqb_spec name other); [congruence | reflexivity].
    + destruct (String.eqb k other); [reflexivity | exact IH].
Qed.

Lemma nil_of_no_elem {A} (l : list A) : (forall x, x ∉ l) -> l = [].
Proof.
  destruct l as [|a l]; [reflexivity|].
  intros Hno. destruct (Hno a). apply elem_of_cons. auto.
Qed.

Lemma factory_inv (env : Env) (secret salt : string) (prefix' : option string)
    (st : EncryptedStorage.t) :
  EncryptedStorage.createTypedSecureStorage env secret salt prefix' = inr st ->
  st = store
         (Some (subtle_deriveKey_PBKDF2 (TextEncoder_encode salt) 100000
                  "SHA-256" (TextEncoder_encode secret) 256))
         prefix'.
Proof.
  unfold EncryptedStorage.createTypedSecureStorage,
    EncryptedStorage.generateKeyFromSecret.
  destruct (negb (window_defined env)); [discriminate|].
  destruct (negb (window_crypto_subtle env)); [discriminate|].
  destruct (EncryptedStorage.constructor env _ prefix') as [st'| |] eqn:Hc;
    try discriminate.
  intros [= <-]. now apply constructed in Hc.
Qed.

(** A medium none of whose entries lies under the prefix of the table. *)
Lemma table_keys_nil (T : string) (m : gmap string string) (ck : string) :
  table_keys T m = [] -> startsWith ck (table_prefix T) = true ->
  m !! ck = None.
Proof.
  intros Hnil Hp. destruct (m !! ck) as [item|] eqn:Hm; [|reflexivity].
  assert (ck ∈ table_keys T m) as Hin
    by (apply elem_of_table_keys; eauto).
  rewrite Hnil in Hin. inversion Hin.
Qed.
End Records.

(** ** [setMultiple] *)

Section Calls.
Context `{Platform}.

Lemma drive_settled (encryptionKey : option CryptoKey)
    (prefix : option string) (T : string) (turns : nat) (c : call)
    (w : World) :
  is_Some (settlement c) -> drive encryptionKey prefix T turns c w = (Ret c, w).
Proof.
  intros Hc. induction turns as [|turns IH]; [reflexivity|].
  cbn [drive]. unfold bind.
  destruct c; try (now destruct Hc); exact IH.
Qed.

(** The part of [set] after the retry test, taken apart at its [await]. *)
Lemma write_record_as_call (encryptionKey : option CryptoKey)
    (prefix : option string) (T : string) (V : json) (U : string)
    (w w' : World) (o : outcome json) :
  write_record encryptionKey prefix T V U w = (o, w') ->
  o <> Starved ->
  exists turns c,
    settlement c = Some o /\
    forall turns',
      (turns <= turns')%nat ->
      drive encryptionKey prefix T turns' (AwaitExists V U false) w
      = (Ret c, w').
Proof.
  unfold write_record, AESGCM.encrypt.
  destruct encryptionKey as [k|]; run.
  - unfold getRandomValues at 1.
    destruct (decide (12 <= length (entropy w))%nat) as [H12|];
      [|now intros [= <- <-] Hst].
    destruct (subtle_encrypt k _ _) as [ct|] eqn:Hct.
    + intros [= <- <-] _.
      exists 2%nat, (Resolved (spread_with_key V U)).
      split; [reflexivity|].
      intros [|[|turns']] Hle; try lia.
      cbn [drive]. unfold bind at 1.
      unfold set_resume at 1. cbn [andb].
      unfold bind at 1. rewrite getRandomValues_enough by exact H12.
      unfold ret at 1. unfold bind at 1.
      unfold set_resume at 1. rewrite Hct. run.
      apply drive_settled. now eexists.
    + intros [= <- <-] _. exists 2%nat, (Rejected OperationError).
      split; [reflexivity|].
      intros [|[|turns']] Hle; try lia.
      cbn [drive]. unfold bind at 1.
      unfold set_resume at 1. cbn [andb].
      unfold bind at 1. rewrite getRandomValues_enough by exact H12.
      unfold ret at 1. unfold bind at 1.
      unfold set_resume at 1. rewrite Hct. run.
      apply drive_settled. now eexists.
  - intros [= <- <-] _. exists 1%nat, (Rejected AESGCM.not_initialized).
    split; [reflexivity|].
    intros [|turns'] Hle; try lia.
    cbn [drive]. unfold bind at 1.
    unfold set_resume at 1. cbn [andb]. run.
    apply drive_settled. now eexists.
Qed.
End Calls.

Section Batch.
Context `{Platform}.
Variable encryptionKey : option CryptoKey.
Variable prefix : option string.
Local Abbreviation this := (store encryptionKey prefix).
Local Abbreviation storage_key := (EncryptedStorage.storage_key this).
Local Abbreviation holds_record := (holds_record encryptionKey prefix).
Local Abbreviation set_start := (set_start encryptionKey prefix).
Local Abbreviation set_resume := (set_resume encryptionKey prefix).
Local Abbreviation start_in_order := (start_in_order encryptionKey prefix).
Local Abbreviation resume_in_order := (resume_in_order encryptionKey prefix).
Local Abbreviation setMultiple := (setMultiple encryptionKey prefix).
Local Abbreviation drive := (drive encryptionKey prefix).
Local Abbreviation batch_ok := (batch_ok encryptionKey prefix).

Lemma set_start_run (T : string) (V : json) (w : World) :
  set_start T V w =
  if decide (16 <= length (entropy w))%nat then
    (Ret (AwaitExists V (first_uuid w)
            (truthy (localStorage w !! storage_key T (first_uuid w)))),
     drawn 16 w)
  else (Starved, w).
Proof.
  unfold set_start, or_else. cbn [truthy].
  unfold randomUUID, EncryptedStorage.exists_, getRandomValues. run.
  destruct (decide (16 <= length (entropy w))%nat); reflexivity.
Qed.

Lemma set_start_medium (T : string) (V : json) (w : World) :
  localStorage (snd (set_start T V w)) = localStorage w.
Proof. rewrite set_start_run. now destruct (decide _). Qed.

(** Starting the calls draws their UUIDs in a row and reads the medium,
    which it leaves as it is. *)
Lemma start_in_order_run (T : string) (Vs : list json) (w : World) :
  (16 * length Vs <= length (entropy w))%nat ->
  start_in_order T Vs w =
  (Ret (zip_with
          (fun V U =>
             AwaitExists V U (truthy (localStorage w !! storage_key T U)))
          Vs (batch_keys (length Vs) (entropy w))),
   drawn (16 * length Vs) w).
Proof.
  revert w. induction Vs as [|V Vs IH]; intros w Hn.
  - cbn. unfold drawn, ret. now destruct w.
  - cbn [start_in_order length batch_keys zip_with] in *.
    unfold bind at 1. rewrite set_start_run, decide_True by lia.
    unfold bind at 1. rewrite IH by (cbn; rewrite length_drop; lia).
    unfold ret, drawn, first_uuid. cbn [localStorage entropy].
    rewrite drop_drop. do 3 f_equal. lia.
Qed.

Lemma start_in_order_medium (T : string) (Vs : list json) (w : World) :
  localStorage (snd (start_in_order T Vs w)) = localStorage w.
Proof.
  revert w. induction Vs as [|V Vs IH]; intros w; [reflexivity|].
  cbn [start_in_order]. unfold bind at 1.
  pose proof (set_start_medium T V w) as Hs.
  destruct (set_start T V w) as [[c| |] w1]; cbn [snd] in *; try exact Hs.
  unfold bind at 1. specialize (IH w1).
  destruct (start_in_order T Vs w1) as [[cs| |] w2]; run; cbn [snd] in *;
    congruence.
Qed.

(** An invariant of the single resumptions is one of every schedule, and
    every resumption of a call brings it a turn closer to settling. *)
Lemma resume_in_order_invariant (Inv : list call -> World -> Prop)
    (turns_left : call -> nat) (T : string) :
  (forall calls w i c,
     Inv calls w -> calls !! i = Some c ->
     exists c' w',
       set_resume T c w = (Ret c', w') /\
       Inv (<[i := c']> calls) w' /\
       (turns_left c' <= pred (turns_left c))%nat) ->
  forall schedule calls w,
    Inv calls w ->
    exists calls' w',
      resume_in_order T schedule calls w = (Ret calls', w') /\
      Inv calls' w' /\
      length calls' = length calls /\
      forall i c c',
        calls !! i = Some c -> calls' !! i = Some c' ->
        (turns_left c' <= turns_left c - count_occ Nat.eq_dec schedule i)%nat.
Proof.
  intros Hstep. induction schedule as [|i schedule IH]; intros calls w HI.
  - exists calls, w. split; [reflexivity|]. split; [exact HI|].
    split; [reflexivity|].
    intros j a b Ha Hb. simplify_eq. cbn. lia.
  - cbn [resume_in_order].
    destruct (calls !! i) as [c0|] eqn:Hi.
    + destruct (Hstep _ _ _ _ HI Hi) as (c1 & w1 & Hrun & HI1 & Hturn).
      unfold bind at 1. rewrite Hrun.
      destruct (IH _ _ HI1) as (calls' & w' & -> & HI' & Hlen & Hleft).
      exists calls', w'. split; [reflexivity|]. split; [exact HI'|].
      split; [now rewrite Hlen, length_insert|].
      intros j c c' Hc Hc'. cbn [count_occ].
      destruct (Nat.eq_dec i j) as [->|Hne].
      * rewrite Hi in Hc. injection Hc as <-.
        assert (<[j := c1]> calls !! j = Some c1) as Hj
          by (apply list_lookup_insert_eq; now apply lookup_lt_Some in Hi).
        specialize (Hleft _ _ _ Hj Hc'). lia.
      * apply (Hleft j); [|exact Hc'].
        now rewrite list_lookup_insert_ne.
    + destruct (IH _ _ HI) as (calls' & w' & -> & HI' & Hlen & Hleft).
      exists calls', w'. split; [reflexivity|]. split; [exact HI'|].
      split; [exact Hlen|].
      intros j c c' Hc Hc'. cbn [count_occ].
      destruct (Nat.eq_dec i j) as [->|Hne]; [congruence|].
      now apply Hleft.
Qed.

Lemma sum_list_with_insert {A} (f : A -> nat) (l : list A) (i : nat)
    (x y : A) :
  l !! i = Some x ->
  (sum_list_with f (<[i := y]> l) + f x = sum_list_with f l + f y)%nat.
Proof.
  revert i. induction l as [|a l IH]; intros [|i] Hi; try discriminate.
  - injection Hi as ->. cbn. lia.
  - specialize (IH i Hi).
    change (<[S i := y]> (a :: l)) with (a :: <[i := y]> l).
    cbn [sum_list_with]. lia.
Qed.

Lemma sum_list_with_resolved (results : list json) :
  sum_list_with pending (map Resolved results) = 0%nat.
Proof. induction results; cbn; congruence. Qed.

Lemma Promise_all_resolved (results : list json) :
  Promise_all (map Resolved results) = Some results.
Proof. induction results as [|r rs IH]; cbn; [|rewrite IH]; reflexivity. Qed.

Lemma batch_ok_step (k : CryptoKey) (T : string) (Vs : list json)
    (Us : list string) (m0 : gmap string string) (E : bytes)
    (calls : list call) (w : World) (i : nat) (c : call) :
  encryptionKey = Some k ->
  length Us = length Vs ->
  (12 * length Vs <= length E)%nat ->
  batch_ok k T Vs Us m0 E calls w ->
  calls !! i = Some c ->
  exists c' w',
    set_resume T c w = (Ret c', w') /\
    batch_ok k T Vs Us m0 E (<[i := c']> calls) w' /\
    (turns_left c' <= pred (turns_left c))%nat.
Proof.
  intros Hk HUs HE Hok Hi.
  pose proof Hok as (Hlen & Hcalls & (d & Hd & Hsum) & Hrec & Hframe).
  pose proof (lookup_lt_Some _ _ _ Hi) as Hlt.
  destruct (lookup_lt_is_Some_2 Vs i) as [V HV]; [lia|].
  destruct (lookup_lt_is_Some_2 Us i) as [U HU]; [lia|].
  destruct (Hcalls _ _ _ _ Hi HV HU) as [->|[(iv & Hiv & ->)| ->]].
  - (* resumed after [await this.exists]: the nonce is drawn *)
    pose proof (sum_list_with_insert pending calls i _
                  (AwaitCipher V U k (take 12 (entropy w))) Hi) as Hins.
    cbn [pending] in Hins.
    assert (12 <= length (entropy w))%nat as Hn.
    { rewrite Hd, length_drop.
      pose proof (sum_list_with_insert pending calls i _
                    (Resolved JNull) Hi) as Hpos. cbn [pending] in Hpos.
      lia. }
    exists (AwaitCipher V U k (take 12 (entropy w))), (drawn 12 w).
    split.
    { unfold set_resume. cbn [andb]. rewrite Hk. run.
      now rewrite getRandomValues_enough by exact Hn. }
    split; [|cbn; lia].
    split; [now rewrite length_insert|]. split; [|split; [|split]].
    + intros j c V' U' Hc HV' HU'.
      destruct (decide (j = i)) as [->|Hne].
      * rewrite list_lookup_insert_eq in Hc by exact Hlt. simplify_eq.
        right; left. eexists. split; [|reflexivity].
        rewrite length_take. lia.
      * rewrite list_lookup_insert_ne in Hc by auto. eauto.
    + exists (d + 12)%nat. cbn [drawn entropy]. split.
      * rewrite Hd, drop_drop. reflexivity.
      * lia.
    + intros j r U' Hc HU'. cbn [drawn localStorage].
      destruct (decide (j = i)) as [->|Hne].
      * rewrite list_lookup_insert_eq in Hc by exact Hlt. discriminate.
      * rewrite list_lookup_insert_ne in Hc by auto. eauto.
    + exact Hframe.
  - (* resumed after [await crypto.subtle.encrypt]: the record is written *)
    destruct (AES_GCM_encrypt_total k iv
                (TextEncoder_encode (JSON_stringify V)) Hiv) as [ct Hct].
    pose proof (sum_list_with_insert pending calls i _
                  (Resolved (spread_with_key V U)) Hi) as Hins.
    cbn [pending] in Hins.
    eexists (Resolved (spread_with_key V U)), _.
    split.
    { unfold set_resume. rewrite Hct. run. reflexivity. }
    split; [|cbn; lia].
    split; [now rewrite length_insert|]. split; [|split; [|split]].
    + intros j c V' U' Hc HV' HU'.
      destruct (decide (j = i)) as [->|Hne].
      * rewrite list_lookup_insert_eq in Hc by exact Hlt. simplify_eq.
        now right; right.
      * rewrite list_lookup_insert_ne in Hc by auto. eauto.
    + exists d. cbn [entropy]. split; [exact Hd | lia].
    + intros j r U' Hc HU'. cbn [localStorage].
      destruct (decide (U' = U)) as [->|HneU].
      * exists i, V. split; [exact HU|]. split; [exact HV|].
        exists k, iv, ct. split; [exact Hk|]. split; [exact Hct|].
        now rewrite lookup_insert_eq.
      * assert (j <> i) as Hne by (intros ->; congruence).
        rewrite list_lookup_insert_ne in Hc by auto.
        destruct (Hrec _ _ _ Hc HU') as (j' & V' & HU'' & HV' & c & iv' & ct'
                                         & Hc' & Hct' & Hitem).
        exists j', V'. split; [exact HU''|]. split; [exact HV'|].
        exists c, iv', ct'. split; [exact Hc'|]. split; [exact Hct'|].
        rewrite lookup_insert_ne; [exact Hitem|].
        intros E'%storage_key_inj. congruence.
    + intros ck Hck. cbn [localStorage].
      rewrite lookup_insert_ne; [now apply Hframe|].
      intros <-. apply (Hck U); [|reflexivity].
      now apply list_elem_of_lookup_2 in HU.
  - (* a settled call is left as it is *)
    exists (Resolved (spread_with_key V U)), w.
    split; [reflexivity|]. split; [|cbn; lia].
    now rewrite list_insert_id by exact Hi.
Qed.

Lemma length_batch_keys (n : nat) (random : bytes) :
  length (batch_keys n random) = n.
Proof. revert random. induction n; intros; cbn; [|rewrite IHn]; reflexivity. Qed.

Lemma sum_list_with_started (g : string -> bool) (Vs : list json)
    (Us : list string) :
  length Us = length Vs ->
  sum_list_with pending (zip_with (fun V U => AwaitExists V U (g U)) Vs Us)
  = length Vs.
Proof.
  revert Us. induction Vs as [|V Vs IH]; intros [|U Us] Hlen;
    try discriminate; [reflexivity|].
  cbn in *. rewrite IH; [reflexivity | lia].
Qed.

(** A batch on a medium where the keys drawn first are free: under every
    schedule that resumes each call twice, every call resolves with its
    value under its key, 28 random bytes a call are used, a record is
    written under each key and no other entry is touched. *)
Lemma setMultiple_run (k : CryptoKey) (T : string) (Vs : list json)
    (w : World) (schedule : list nat) :
  encryptionKey = Some k ->
  (28 * length Vs <= length (entropy w))%nat ->
  Forall (fun U => truthy (localStorage w !! storage_key T U) = false)
         (batch_keys (length Vs) (entropy w)) ->
  (forall i, (i < length Vs)%nat ->
             (2 <= count_occ Nat.eq_dec schedule i)%nat) ->
  exists w',
    setMultiple schedule T Vs w =
      (Ret (map Resolved
              (zip_with spread_with_key Vs
                 (batch_keys (length Vs) (entropy w)))), w') /\
    entropy w' = drop (28 * length Vs) (entropy w) /\
    (forall i U,
       batch_keys (length Vs) (entropy w) !! i = Some U ->
       exists j V,
         batch_keys (length Vs) (entropy w) !! j = Some U /\
         Vs !! j = Some V /\
         holds_record (localStorage w') T V U) /\
    (forall ck,
       (forall U, U ∈ batch_keys (length Vs) (entropy w) ->
                  ck <> storage_key T U) ->
       localStorage w' !! ck = localStorage w !! ck).
Proof.
  intros Hk Hn Hfree Hsched.
  set (Us := batch_keys (length Vs) (entropy w)) in *.
  assert (length Us = length Vs) as HUs by apply length_batch_keys.
  set (E := drop (16 * length Vs) (entropy w)).
  set (calls0 :=
         zip_with
           (fun V U =>
              AwaitExists V U (truthy (localStorage w !! storage_key T U)))
           Vs Us).
  assert (forall i c, calls0 !! i = Some c ->
            exists V U, Vs !! i = Some V /\ Us !! i = Some U /\
                        c = AwaitExists V U false) as Hcalls0.
  { intros i c Hc. unfold calls0 in Hc.
    apply lookup_zip_with_Some in Hc as (V & U & -> & HV & HU).
    exists V, U. split; [exact HV|]. split; [exact HU|].
    f_equal. rewrite Forall_forall in Hfree. apply Hfree.
    now apply list_elem_of_lookup_2 in HU. }
  assert (length calls0 = length Vs) as Hlen0.
  { unfold calls0. rewrite length_zip_with. lia. }
  assert (batch_ok k T Vs Us (localStorage w) E calls0
            (drawn (16 * length Vs) w)) as H0.
  { split; [exact Hlen0|]. split; [|split; [|split]].
    - intros i c V U Hc HV HU.
      destruct (Hcalls0 _ _ Hc) as (V' & U' & HV' & HU' & ->).
      left. congruence.
    - exists 0%nat. split; [reflexivity|].
      unfold calls0. rewrite sum_list_with_started by exact HUs. lia.
    - intros i r U Hc _.
      destruct (Hcalls0 _ _ Hc) as (V' & U' & _ & _ & [=]).
    - reflexivity. }
  destruct (resume_in_order_invariant (batch_ok k T Vs Us (localStorage w) E)
              turns_left T) with (schedule := schedule) (calls := calls0)
              (w := drawn (16 * length Vs) w)
    as (calls' & w' & Hrun & Hok & Hlen' & Hleft).
  { intros calls w1 i c Hok Hc.
    apply (batch_ok_step k T Vs Us (localStorage w) E); try assumption.
    unfold E. rewrite length_drop. lia. }
  { exact H0. }
  destruct Hok as (_ & Hcalls & (d & Hd & Hsum) & Hrec & Hframe).
  assert (calls' = map Resolved (zip_with spread_with_key Vs Us)) as ->.
  { apply list_eq. intros i. rewrite list_lookup_fmap, lookup_zip_with.
    destruct (decide (i < length Vs)%nat) as [Hi|Hi].
    - destruct (lookup_lt_is_Some_2 Vs i) as [V HV]; [lia|].
      destruct (lookup_lt_is_Some_2 Us i) as [U HU]; [lia|].
      destruct (lookup_lt_is_Some_2 calls' i) as [c' Hc']; [lia|].
      destruct (lookup_lt_is_Some_2 calls0 i) as [c0 Hc0]; [lia|].
      rewrite HV, HU, Hc'. cbn. f_equal.
      specialize (Hleft _ _ _ Hc0 Hc'). specialize (Hsched _ Hi).
      destruct (Hcalls0 _ _ Hc0) as (? & ? & _ & _ & ->).
      cbn [turns_left] in Hleft.
      destruct (Hcalls _ _ _ _ Hc' HV HU) as [->|[(iv & _ & ->)| ->]];
        cbn [turns_left] in Hleft; try lia. reflexivity.
    - rewrite (lookup_ge_None_2 calls') by lia.
      rewrite (lookup_ge_None_2 Vs) by lia. reflexivity. }
  exists w'. split; [|split; [|split]].
  - unfold setMultiple, bind.
    rewrite start_in_order_run by lia. exact Hrun.
  - rewrite sum_list_with_resolved in Hsum.
    rewrite Hd. unfold E. rewrite drop_drop. f_equal. lia.
  - intros i U HU.
    destruct (lookup_lt_is_Some_2 Vs i) as [V HV].
    { apply lookup_lt_Some in HU. lia. }
    apply (Hrec i (spread_with_key V U)); [|exact HU].
    rewrite list_lookup_fmap, lookup_zip_with, HV, HU. reflexivity.
  - exact Hframe.
Qed.

(** *** Without a key *)

Lemma start_in_order_unkeyed (T : string) (Vs : list json) (w w' : World)
    (calls : list call) :
  start_in_order T Vs w = (Ret calls, w') ->
  Forall unkeyed calls /\ length calls = length Vs.
Proof.
  revert w calls. induction Vs as [|V Vs IH]; intros w calls.
  - intros [= <- <-]. split; [constructor | reflexivity].
  - cbn [start_in_order]. unfold bind at 1. rewrite set_start_run.
    destruct (decide _); [|discriminate]. unfold bind at 1.
    destruct (start_in_order T Vs (drawn 16 w)) as [[cs| |] w1] eqn:Hcs;
      try discriminate.
    intros [= <- <-]. destruct (IH _ _ Hcs) as [Hall Hlen].
    split; [constructor; [exact I | exact Hall] | cbn; now rewrite Hlen].
Qed.

Lemma set_resume_unkeyed (T : string) (c : call) (w : World) :
  encryptionKey = None -> unkeyed c ->
  localStorage (snd (set_resume T c w)) = localStorage w /\
  forall c' w', set_resume T c w = (Ret c', w') -> unkeyed c'.
Proof.
  intros Hk Hc. destruct c as [V U found| | |e]; try contradiction.
  - unfold set_resume. cbn [is_undefined]. rewrite andb_true_r.
    destruct found.
    + rewrite set_start_run. destruct (decide _).
      * split; [reflexivity|]. now intros c' w' [= <- <-].
      * split; [reflexivity | discriminate].
    + rewrite Hk. split; [reflexivity|]. now intros c' w' [= <- <-].
  - split; [reflexivity|]. now intros c' w' [= <- <-].
Qed.

Lemma resume_in_order_unkeyed (T : string) (schedule : list nat)
    (calls : list call) (w : World) :
  encryptionKey = None -> Forall unkeyed calls ->
  localStorage (snd (resume_in_order T schedule calls w)) = localStorage w /\
  forall calls' w',
    resume_in_order T schedule calls w = (Ret calls', w') ->
    Forall unkeyed calls' /\ length calls' = length calls.
Proof.
  intros Hk. revert calls w.
  induction schedule as [|i schedule IH]; intros calls w Hall.
  - split; [reflexivity|]. now intros calls' w' [= <- <-].
  - cbn [resume_in_order]. destruct (calls !! i) as [c|] eqn:Hi.
    + assert (unkeyed c) as Hc.
      { rewrite Forall_forall in Hall. apply Hall.
        now apply list_elem_of_lookup_2 in Hi. }
      destruct (set_resume_unkeyed T c w Hk Hc) as [Hm Hu].
      unfold bind.
      destruct (set_resume T c w) as [[c'| |] w1]; cbn [snd] in Hm;
        try (split; [exact Hm | discriminate]).
      assert (Forall unkeyed (<[i := c']> calls)) as Hall'.
      { apply Forall_insert; [exact Hall | now apply (Hu c' w1)]. }
      destruct (IH _ w1 Hall') as [Hm' Hu'].
      split; [congruence|]. intros calls' w' Hrun.
      destruct (Hu' _ _ Hrun) as [? Hlen].
      split; [assumption | now rewrite Hlen, length_insert].
    + now apply IH.
Qed.

Lemma Promise_all_unkeyed (calls : list call) :
  Forall unkeyed calls -> calls <> [] -> Promise_all calls = None.
Proof.
  intros Hall Hne. destruct calls as [|c calls]; [congruence|].
  apply Forall_cons in Hall as [Hc _]. now destruct c.
Qed.

Lemma setMultiple_unkeyed (T : string) (Vs : list json) (w : World)
    (schedule : list nat) :
  encryptionKey = None ->
  localStorage (snd (setMultiple schedule T Vs w)) = localStorage w /\
  forall calls w',
    setMultiple schedule T Vs w = (Ret calls, w') ->
    Forall unkeyed calls /\ length calls = length Vs.
Proof.
  intros Hk. unfold setMultiple, bind.
  pose proof (start_in_order_medium T Vs w) as Hm.
  destruct (start_in_order T Vs w) as [[calls0| |] w0] eqn:Hstart;
    cbn [snd] in Hm; try (split; [exact Hm | discriminate]).
  destruct (start_in_order_unkeyed _ _ _ _ _ Hstart) as [Hall Hlen].
  destruct (resume_in_order_unkeyed T schedule calls0 w0 Hk Hall)
    as [Hm' Hu].
  split; [congruence|]. intros calls w' Hrun.
  destruct (Hu _ _ Hrun) as [? Hlen']. split; [assumption | congruence].
Qed.

(** With the first keys free, every call of a store without key is
    rejected at its first resumption. *)
Lemma setMultiple_unkeyed_run (T : string) (Vs : list json) (w : World)
    (schedule : list nat) :
  encryptionKey = None ->
  (16 * length Vs <= length (entropy w))%nat ->
  Forall (fun U => truthy (localStorage w !! storage_key T U) = false)
         (batch_keys (length Vs) (entropy w)) ->
  (forall i, (i < length Vs)%nat ->
             (1 <= count_occ Nat.eq_dec schedule i)%nat) ->
  setMultiple schedule T Vs w =
    (Ret (map (fun _ => Rejected AESGCM.not_initialized) Vs),
     drawn (16 * length Vs) w).
Proof.
  intros Hk Hn Hfree Hsched.
  set (Us := batch_keys (length Vs) (entropy w)) in *.
  assert (length Us = length Vs) as HUs by apply length_batch_keys.
  set (w0 := drawn (16 * length Vs) w).
  set (calls0 :=
         zip_with
           (fun V U =>
              AwaitExists V U (truthy (localStorage w !! storage_key T U)))
           Vs Us).
  set (Inv := fun (calls : list call) (w1 : World) =>
                w1 = w0 /\
                forall i c, calls !! i = Some c ->
                  (exists V U, c = AwaitExists V U false) \/
                  c = Rejected AESGCM.not_initialized).
  assert (Inv calls0 w0) as H0.
  { split; [reflexivity|]. intros i c Hc. unfold calls0 in Hc.
    apply lookup_zip_with_Some in Hc as (V & U & -> & HV & HU).
    left. exists V, U. f_equal. rewrite Forall_forall in Hfree.
    apply Hfree. now apply list_elem_of_lookup_2 in HU. }
  destruct (resume_in_order_invariant Inv pending T)
    with (schedule := schedule) (calls := calls0) (w := w0)
    as (calls' & w' & Hrun & [-> Hcalls] & Hlen' & Hleft).
  { intros calls w1 i c [-> Hcalls] Hc.
    pose proof (lookup_lt_Some _ _ _ Hc) as Hlt.
    destruct (Hcalls _ _ Hc) as [(V & U & ->)| ->].
    - exists (Rejected AESGCM.not_initialized), w0.
      split; [unfold set_resume; cbn [andb]; now rewrite Hk|].
      split; [|cbn; lia]. split; [reflexivity|].
      intros j c' Hc'. destruct (decide (j = i)) as [->|Hne].
      + rewrite list_lookup_insert_eq in Hc' by exact Hlt. right. congruence.
      + rewrite list_lookup_insert_ne in Hc' by auto. eauto.
    - exists (Rejected AESGCM.not_initialized), w0.
      split; [reflexivity|]. split; [|cbn; lia].
      rewrite list_insert_id by exact Hc. split; [reflexivity | exact Hcalls]. }
  { exact H0. }
  assert (length calls0 = length Vs) as Hlen0.
  { unfold calls0. rewrite length_zip_with. lia. }
  unfold setMultiple, bind. rewrite start_in_order_run by lia.
  fold Us calls0 w0. rewrite Hrun. do 2 f_equal.
  apply list_eq. intros i. rewrite list_lookup_fmap.
  destruct (decide (i < length Vs)%nat) as [Hi|Hi].
  - destruct (lookup_lt_is_Some_2 Vs i) as [V HV]; [lia|].
    destruct (lookup_lt_is_Some_2 calls' i) as [c' Hc']; [lia|].
    destruct (lookup_lt_is_Some_2 calls0 i) as [c0 Hc0]; [lia|].
    rewrite HV, Hc'. cbn. f_equal.
    specialize (Hleft _ _ _ Hc0 Hc'). specialize (Hsched _ Hi).
    destruct H0 as [_ H0].
    destruct (H0 _ _ Hc0) as [(? & ? & ->)| ->];
      destruct (Hcalls _ _ Hc') as [(? & ? & ->)| ->];
      cbn [pending] in Hleft; try lia; reflexivity.
  - rewrite (lookup_ge_None_2 calls') by lia.
    rewrite (lookup_ge_None_2 Vs) by lia. reflexivity.
Qed.

(** *** One call alone *)

Lemma resume_in_order_single (T : string) (schedule : list nat) (c : call)
    (w : World) :
  resume_in_order T schedule [c] w =
  (let* c' := drive T (count_occ Nat.eq_dec schedule 0) c in ret [c']) w.
Proof.
  revert c w. induction schedule as [|[|i] schedule IH]; intros c w.
  - reflexivity.
  - cbn [resume_in_order count_occ lookup list_lookup].
    destruct (Nat.eq_dec 0 0) as [_|]; [|congruence].
    cbn [drive]. unfold bind.
    destruct (set_resume T c w) as [[c'| |] w1]; try reflexivity.
    change (<[0%nat := c']> [c]) with [c']. rewrite IH. reflexivity.
  - cbn [resume_in_order count_occ].
    destruct (Nat.eq_dec (S i) 0) as [|_]; [discriminate|].
    change ([c] !! S i) with (@None call). apply IH.
Qed.

(** A call of [set] without key, taken apart at its [await]s, settles as
    [set] does. *)
Lemma set_as_call (T : string) (V : json) (n : nat) :
  forall (w w' : World) (o : outcome json),
    (length (entropy w) < n)%nat ->
    EncryptedStorage.set this T V None w = (o, w') ->
    o <> Starved ->
    exists turns c,
      settlement c = Some o /\
      forall turns',
        (turns <= turns')%nat ->
        (let* c0 := set_start T V in drive T turns' c0) w = (Ret c, w').
Proof.
  induction n as [|n IH]; intros w w' o Hlen; [lia|].
  rewrite (set_run encryptionKey prefix). cbn [truthy is_undefined].
  destruct (decide (16 <= length (entropy w))%nat) as [H16|];
    [|now intros [= <- <-] Hst].
  rewrite andb_true_r.
  destruct (truthy (localStorage w !! storage_key T (first_uuid w)))
    eqn:Hfound.
  - intros Hset Hst.
    destruct (IH (drawn 16 w) w' o) as (turns & c & Hc & Hdrive);
      [cbn; rewrite length_drop; lia | exact Hset | exact Hst |].
    exists (S turns), c. split; [exact Hc|].
    intros [|turns'] Hle; [lia|].
    unfold bind at 1. rewrite set_start_run, decide_True by exact H16.
    rewrite Hfound. cbn [drive]. unfold bind at 1.
    unfold set_resume. cbn [andb is_undefined].
    apply Hdrive. lia.
  - intros Hset Hst.
    destruct (write_record_as_call _ _ _ _ _ _ _ _ Hset Hst)
      as (turns & c & Hc & Hdrive).
    exists (S turns), c. split; [exact Hc|].
    intros [|turns'] Hle; [lia|].
    unfold bind at 1. rewrite set_start_run, decide_True by exact H16.
    rewrite Hfound. apply Hdrive. lia.
Qed.

Lemma setMultiple_single (T : string) (V : json) (w w' : World)
    (o : outcome json) :
  EncryptedStorage.set this T V None w = (o, w') ->
  o <> Starved ->
  exists turns c,
    settlement c = Some o /\
    forall schedule,
      (turns <= count_occ Nat.eq_dec schedule 0)%nat ->
      setMultiple schedule T [V] w = (Ret [c], w').
Proof.
  intros Hset Hst.
  destruct (set_as_call T V (S (length (entropy w))) w w' o
              ltac:(lia) Hset Hst) as (turns & c & Hc & Hdrive).
  exists turns, c. split; [exact Hc|]. intros schedule Hle.
  specialize (Hdrive _ Hle). unfold setMultiple.
  cbn [start_in_order]. unfold bind in *.
  destruct (set_start T V w) as [[c0| |] w0]; try discriminate.
  unfold ret at 1 2. rewrite resume_in_order_single. unfold bind.
  now rewrite Hdrive.
Qed.
End Batch.

(** ** What [getAll] depends on *)

Section Isolation.
Context `{Platform}.
Variable encryptionKey : option CryptoKey.
Variable prefix : option string.
Local Abbreviation this := (store encryptionKey prefix).
Local Abbreviation storage_key := (EncryptedStorage.storage_key this).
Local Abbreviation table_prefix := (EncryptedStorage.table_prefix this).
Local Abbreviation table_keys := (table_keys encryptionKey prefix).
Local Abbreviation read_record := (read_record encryptionKey prefix).

Lemma collect_Ret_turns (turns : list (outcome (option json)))
    (results rs : list json) :
  collect turns results = Ret rs ->
  exists xs, turns = map Ret xs /\ rs = (results ++ omap id xs)%list.
Proof.
  revert results. induction turns as [|t turns IH]; intros results.
  - intros [= <-]. exists []. now rewrite app_nil_r.
  - destruct t as [[r|]| |]; cbn [collect]; try discriminate; intros Hc.
    + destruct (IH _ Hc) as (xs & -> & ->). exists (Some r :: xs).
      split; [reflexivity|]. cbn. now rewrite <- app_assoc.
    + destruct (IH _ Hc) as (xs & -> & ->). exists (None :: xs).
      split; reflexivity.
Qed.

Lemma collect_map_Ret (xs : list (option json)) (results : list json) :
  collect (map Ret xs) results = Ret (results ++ omap id xs)%list.
Proof.
  revert results. induction xs as [|[r|] xs IH]; intros results;
    cbn [map collect].
  - now rewrite app_nil_r.
  - rewrite IH. cbn. now rewrite <- app_assoc.
  - apply IH.
Qed.

(** The keys [getAll] scans, and what it reads under them, depend only on
    the entries under the prefix of the table. *)
Lemma table_keys_agree (T : string) (m m' : gmap string string) :
  (forall ck, startsWith ck (table_prefix T) = true -> m' !! ck = m !! ck) ->
  table_keys T m' ≡ₚ table_keys T m.
Proof.
  intros Hagree.
  apply NoDup_Permutation; try apply table_keys_NoDup.
  intros ck. rewrite !elem_of_table_keys.
  split; intros [Hsome Hp]; (split; [|exact Hp]).
  - now rewrite <- Hagree.
  - now rewrite Hagree.
Qed.

Lemma getAll_agree (T : string) (w w' : World) (rs : list json) :
  (forall ck, startsWith ck (table_prefix T) = true ->
              localStorage w' !! ck = localStorage w !! ck) ->
  EncryptedStorage.getAll this T w = (Ret rs, w) ->
  exists rs',
    EncryptedStorage.getAll this T w' = (Ret rs', w') /\ rs' ≡ₚ rs.
Proof.
  intros Hagree. rewrite !getAll_run. intros [= Hrs].
  apply collect_Ret_turns in Hrs as (xs & Hturns & ->).
  pose proof (table_keys_agree T _ _ Hagree) as Hkeys.
  assert (map (read_record T (localStorage w'))
              (table_keys T (localStorage w'))
          = map (read_record T (localStorage w))
                (table_keys T (localStorage w'))) as Hsame.
  { apply map_ext_in. intros ck [_ Hp]%list_elem_of_In%elem_of_table_keys.
    unfold read_record. now rewrite (Hagree _ Hp). }
  assert (map (read_record T (localStorage w))
              (table_keys T (localStorage w')) ≡ₚ map Ret xs) as Hperm.
  { rewrite <- Hturns. now apply Permutation_map. }
  apply Permutation_map_inv in Hperm as (xs' & Hxs' & Hperm).
  exists (omap id xs'). split.
  - rewrite Hsame, Hxs'. now rewrite collect_map_Ret.
  - cbn. now rewrite Hperm.
Qed.

Lemma storage_key_other_table (A B k : string) :
  has_separator A = false -> has_separator B = false -> A <> B ->
  startsWith (storage_key A k) (table_prefix B) = false.
Proof.
  intros HA HB Hne.
  destruct (startsWith _ _) eqn:Hp; [exfalso|reflexivity].
  apply Hne, (prefix_upto_separator A B k HA HB).
  rewrite <- (prefix_app_cancel (EncryptedStorage.prefix this ++ "_")).
  unfold startsWith, EncryptedStorage.storage_key,
    EncryptedStorage.table_prefix in Hp.
  now rewrite !string_app_assoc.
Qed.
End Isolation.

(** ** The executable platform is a platform *)

Module MockLaws.
Import Mock.

Lemma digits_pos_digits (p : positive) : digits_pos (pos_digits p) = Some p.
Proof. induction p as [p IH|p IH|]; cbn; rewrite ?IH; reflexivity. Qed.

Lemma of_to_tree : forall v : json, of_tree (to_tree v) = v.
Proof.
  fix IH 1. intros [|[]|n|s|elems|props]; cbn; try reflexivity.
  - f_equal. induction elems as [|x elems IHe]; cbn; [reflexivity|].
    f_equal; [apply IH | exact IHe].
  - f_equal. induction props as [|[k x] props IHp]; cbn; [reflexivity|].
    f_equal; [f_equal; apply IH | exact IHp].
Qed.

Lemma parse_stringify (v : json) : parse (stringify v) = Some v.
Proof.
  unfold parse, stringify. rewrite digits_pos_digits. cbn.
  rewrite decode_encode. cbn. now rewrite of_to_tree.
Qed.

Lemma to_uint8_byte_num (b : byte) : to_uint8 (byte_num b) = b.
Proof. destruct b; reflexivity. Qed.

Lemma uint8array_Array_from (u8 : bytes) :
  uint8array (Some (Array_from u8)) = inr u8.
Proof.
  unfold uint8array, Array_from. f_equal.
  induction u8 as [|b u8 IH]; cbn [map]; [reflexivity|].
  now rewrite to_uint8_byte_num, IH.
Qed.

Lemma uuid_nonempty (r : bytes) : uuid r <> "".
Proof. unfold uuid. destruct (hex (take 4 r)); discriminate. Qed.

Lemma unseal_seal (k iv pt ct : bytes) :
  seal k iv pt = Some ct -> unseal k iv ct = Some pt.
Proof.
  unfold seal, unseal. intros [= <-].
  replace (length (pt ++ k ++ iv)%list - length (k ++ iv)%list)%nat
    with (length pt) by (rewrite !length_app; lia).
  rewrite drop_app_length, take_app_length. now rewrite decide_True.
Qed.

Definition platform : Platform :=
  {| CryptoKey := bytes;
     JSON_stringify := stringify;
     JSON_parse := parse;
     TextEncoder_encode := list_byte_of_string;
     TextDecoder_decode := string_of_list_byte;
     btoa := fun s => s;
     atob := fun s => Some s;
     ToString := to_string;
     Uint8Array_new := uint8array;
     UUID_of_random := uuid;
     subtle_encrypt := seal;
     subtle_decrypt := unseal;
     subtle_deriveKey_PBKDF2 := derive;
     JSON_parse_empty := eq_refl;
     JSON_envelope := fun iv data => parse_stringify (envelope iv data);
     TextDecoder_TextEncoder :=
       fun v => string_of_list_byte_of_string (stringify v);
     atob_btoa := fun s => eq_refl;
     ToString_string := fun s => eq_refl;
     Uint8Array_of_Array := uint8array_Array_from;
     UUID_nonempty := uuid_nonempty;
     AES_GCM_decrypt_encrypt := unseal_seal;
     AES_GCM_encrypt_total := fun k iv pt _ => ex_intro _ _ eq_refl |}.
End MockLaws.

(** * The claims *)

Section Claims.
Context `{Platform}.

(** C1. Round trip: when [set(T, V)] returns for a JSON-serializable [V],
    the returned object carries the assigned key [k] in its [key]
    property, the medium holds at the storage key of [k] a text that
    [decrypt] turns back into [JSON.stringify(V)], and [get(T, k)] on that
    medium returns [V]. *)
Theorem C1_set_get_roundtrip (env : Env) (encryptionKey : option CryptoKey)
    (prefix : option string) (st : EncryptedStorage.t) (T : string)
    (V : json) (key : option string) (w w' : World) (stored : json) :
  EncryptedStorage.constructor
    env (AESGCMEncryptionService encryptionKey) prefix = Ret st ->
  JSON_serializable V ->
  EncryptedStorage.set st T V key w = (Ret stored, w') ->
  exists k item,
    get_property "key" stored = Some (JStr k) /\
    localStorage w' !! EncryptedStorage.storage_key st T k = Some item /\
    AESGCM.decrypt encryptionKey item w' = (Ret (JSON_stringify V), w') /\
    EncryptedStorage.get st T k w' = (Ret V, w').
Proof.
  intros ->%constructed HV Hset.
  apply set_effect in Hset
    as (fk & k & iv & ct & -> & Hk & _ & Hct & Hls & _).
  eexists fk, _. split; [apply key_of_spread|].
  split; [rewrite Hls; apply lookup_insert_eq|]. split.
  - rewrite decrypt_run, Hk. f_equal. now apply decrypt_envelope.
  - rewrite get_run, Hls, lookup_insert_eq.
    rewrite (read_envelope _ _ _ _ _ Hk Hct). now rewrite HV.
Qed.

(** C2, at the failing input.  A table whose name is that of another
    table followed by the separator and more text is a different table with
    the same storage keys: a record set under table [B_r] in an empty
    medium comes back from [getAll(B)], under the key [r_k]. *)
Theorem C2_tables_overlap (env : Env) (encryptionKey : option CryptoKey)
    (prefix : option string) (st : EncryptedStorage.t) (B r k : string)
    (V : json) (key : option string) (w w' : World) (stored : json) :
  EncryptedStorage.constructor
    env (AESGCMEncryptionService encryptionKey) prefix = Ret st ->
  JSON_serializable V ->
  localStorage w = ∅ ->
  EncryptedStorage.set st (B ++ "_" ++ r) V key w = (Ret stored, w') ->
  get_property "key" stored = Some (JStr k) ->
  B ++ "_" ++ r <> B /\
  EncryptedStorage.storage_key st (B ++ "_" ++ r) k =
    EncryptedStorage.storage_key st B (r ++ "_" ++ k) /\
  EncryptedStorage.getAll st B w' =
    (Ret [spread_with_key V (r ++ "_" ++ k)], w').
Proof.
  intros ->%constructed HV Hempty Hset Hkey.
  apply set_effect in Hset
    as (fk & c & iv & ct & -> & Hc & _ & Hct & Hls & _).
  rewrite key_of_spread in Hkey. injection Hkey as ->.
  split; [apply string_app_neq|]. split; [apply storage_key_nested|].
  eapply getAll_single
    with (ck := EncryptedStorage.storage_key
                  (store encryptionKey prefix) (B ++ "_" ++ r) k);
    [exact Hc | exact Hct | exact HV | | now rewrite Hls, Hempty].
  rewrite storage_key_nested. apply storage_key_app.
Qed.



(** C5, as amended. [get] returns [null] when the medium has no entry at
    the storage key, and throws the exception of [decrypt] when the entry
    holds a non-empty text that [decrypt] rejects; the two outcomes differ. *)
Theorem C5_get_absent_or_throws (env : Env) (encryptionKey : option CryptoKey)
    (prefix : option string) (st : EncryptedStorage.t) (T k : string)
    (w : World) :
  EncryptedStorage.constructor
    env (AESGCMEncryptionService encryptionKey) prefix = Ret st ->
  (localStorage w !! EncryptedStorage.storage_key st T k = None ->
   EncryptedStorage.get st T k w = (Ret JNull, w)) /\
  (forall item e,
     localStorage w !! EncryptedStorage.storage_key st T k = Some item ->
     item <> "" ->
     AESGCM.decrypt encryptionKey item w = (Throw e, w) ->
     EncryptedStorage.get st T k w = (Throw e, w) /\
     EncryptedStorage.get st T k w <> (Ret JNull, w)).
Proof.
  intros ->%constructed. split.
  - intros Hnone. now rewrite get_run, Hnone.
  - intros item e Hitem Hne Hdec. rewrite get_run, Hitem.
    rewrite decrypt_run in Hdec. injection Hdec as Hdec.
    unfold read_value. apply truthy_Some in Hne. rewrite Hne.
    cbn [negb]. change (default "" (Some item)) with item. rewrite Hdec.
    split; congruence.
Qed.

(** C6, as amended. If the scan of [getAll] meets an entry with a non-empty
    text that [decrypt] rejects, [getAll] throws and so does [filter] with
    every predicate: no list of records is returned.  When the scan of the
    keys enumerated before that entry succeeds, the exception thrown is the
    one [decrypt] threw on it. *)
Theorem C6_getAll_aborts (env : Env) (encryptionKey : option CryptoKey)
    (prefix : option string) (st : EncryptedStorage.t) (T ck item : string)
    (e : exn) (w : World) :
  EncryptedStorage.constructor
    env (AESGCMEncryptionService encryptionKey) prefix = Ret st ->
  startsWith ck (EncryptedStorage.table_prefix st T) = true ->
  localStorage w !! ck = Some item ->
  item <> "" ->
  AESGCM.decrypt encryptionKey item w = (Throw e, w) ->
  (exists e',
     EncryptedStorage.getAll st T w = (Throw e', w) /\
     forall p, EncryptedStorage.filter st T p w = (Throw e', w)) /\
  (forall before after rs,
     List.filter
       (fun key => startsWith key (EncryptedStorage.table_prefix st T))
       (Object_keys (localStorage w)) = (before ++ ck :: after)%list ->
     EncryptedStorage.getAll_loop st T before [] w = (Ret rs, w) ->
     EncryptedStorage.getAll st T w = (Throw e, w)).
Proof.
  intros ->%constructed Hp Hitem Hne Hdec.
  rewrite decrypt_run in Hdec. injection Hdec as Hdec.
  pose proof (read_record_throws encryptionKey prefix T _ _ _ _
                Hitem Hne Hdec) as Hturn.
  split.
  - destruct (collect_throws
                (map (read_record encryptionKey prefix T (localStorage w))
                     (table_keys encryptionKey prefix T (localStorage w)))
                [] e) as (e' & He' & _).
    + rewrite <- Hturn. apply list_elem_of_In, in_map, list_elem_of_In.
      apply elem_of_table_keys. eauto.
    + intros [key [Hs _]]%list_elem_of_In%in_map_iff.
      now apply read_record_not_starved in Hs.
    + exists e'. split.
      * now rewrite getAll_run, He'.
      * intros p. now rewrite filter_run, getAll_run, He'.
  - intros before after rs Hkeys Hbefore.
    rewrite getAll_loop_run in Hbefore. injection Hbefore as Hbefore.
    apply collect_Ret_inv in Hbefore.
    rewrite getAll_run. unfold table_keys. rewrite Hkeys, map_app.
    cbn [map]. rewrite Hturn. now rewrite collect_first_throw.
Qed.




(** C10. An entry whose text is the empty string: [exists] answers
    [false]; [get] returns [null] whatever the encryption service is (it is
    not called: the world is unchanged and no exception of the service can
    show); [getAll], under the AES-GCM service, gives what the scan of the
    other keys gives. *)
Theorem C10_empty_item (env : Env) (svc : EncryptionService)
    (prefix : option string) (st : EncryptedStorage.t) (T k : string)
    (w : World) :
  EncryptedStorage.constructor env svc prefix = Ret st ->
  localStorage w !! EncryptedStorage.storage_key st T k = Some "" ->
  EncryptedStorage.exists_ st T k w = (Ret false, w) /\
  EncryptedStorage.get st T k w = (Ret JNull, w) /\
  (forall encryptionKey,
     svc = AESGCMEncryptionService encryptionKey ->
     EncryptedStorage.getAll st T w =
     EncryptedStorage.getAll_loop st T
       (List.filter
          (fun key => negb (String.eqb key (EncryptedStorage.storage_key st T k)))
          (List.filter
             (fun key => startsWith key (EncryptedStorage.table_prefix st T))
             (Object_keys (localStorage w))))
       [] w).
Proof.
  intros ->%constructor_inv Hitem. repeat split.
  - unfold EncryptedStorage.exists_. run. now rewrite Hitem.
  - unfold EncryptedStorage.get. run. now rewrite Hitem.
  - intros encryptionKey ->.
    change {| EncryptedStorage.prefix := default "@edb" prefix;
              EncryptedStorage.encryptionService :=
                Some (AESGCMEncryptionService encryptionKey) |}
      with (store encryptionKey prefix) in *.
    rewrite getAll_run, getAll_loop_run. f_equal.
    apply collect_without. unfold read_record. now rewrite Hitem.
Qed.

End Claims.

(** * Further properties of the code *)

Section Extras.
Context `{Platform}.

(** X1. Round trip of the encryption service: when [encrypt] returns an
    envelope for a text that UTF-8 encoding carries unchanged, the envelope
    is not empty, [encrypt] has taken 12 random bytes and left the medium
    alone, and [decrypt] under the same key returns the text from the
    envelope in every world, without changing it. *)
Theorem X1_encrypt_decrypt_roundtrip (encryptionKey : option CryptoKey)
    (data e : string) (w w1 : World) :
  TextDecoder_decode (TextEncoder_encode data) = data ->
  AESGCM.encrypt encryptionKey data w = (Ret e, w1) ->
  e <> "" /\
  localStorage w1 = localStorage w /\
  entropy w1 = drop 12 (entropy w) /\
  forall w2, AESGCM.decrypt encryptionKey e w2 = (Ret data, w2).
Proof.
  intros Htext (k & ct & -> & Hn & Hct & -> & ->)%encrypt_inv.
  split; [apply envelope_text_nonempty|]. repeat split.
  intros w2. rewrite decrypt_run. f_equal.
  now apply decrypt_envelope_text.
Qed.

(** X2. Failures of the encryption service.  [decrypt] never changes the
    world and needs no random bytes.  Without a key both methods throw
    ["Encryption key has not been initialized."] before anything else (no
    random byte is taken, the text is not looked at).  With a key,
    [decrypt] throws a [SyntaxError] on a text that is not JSON, the empty
    text included, and a [TypeError] on the JSON text of [null]. *)
Theorem X2_service_failures (encryptionKey : option CryptoKey)
    (text : string) (w : World) :
  snd (AESGCM.decrypt encryptionKey text w) = w /\
  fst (AESGCM.decrypt encryptionKey text w) <> Starved /\
  (encryptionKey = None ->
   AESGCM.decrypt encryptionKey text w = (Throw AESGCM.not_initialized, w) /\
   AESGCM.encrypt encryptionKey text w = (Throw AESGCM.not_initialized, w)) /\
  (encryptionKey <> None ->
   (JSON_parse text = None ->
    AESGCM.decrypt encryptionKey text w = (Throw SyntaxError, w)) /\
   (text = "" ->
    AESGCM.decrypt encryptionKey text w = (Throw SyntaxError, w)) /\
   (JSON_parse text = Some JNull ->
    AESGCM.decrypt encryptionKey text w = (Throw TypeError, w))).
Proof.
  rewrite decrypt_run. cbn [fst snd].
  split; [reflexivity|]. split; [apply decrypt_not_starved|]. split.
  - intros ->. split; reflexivity.
  - destruct encryptionKey as [k|]; [intros _|congruence].
    unfold decrypt_outcome, AESGCM.decrypt. repeat split.
    + now intros ->.
    + intros ->. now rewrite JSON_parse_empty.
    + now intros ->.
Qed.

(** X3. [remove], for every store and medium: it returns, deletes the
    entry at the storage key and nothing else, takes no random byte;
    afterwards [exists] answers [false] and [get] returns [null]; on a
    medium without the entry it changes nothing, and a second [remove]
    returns as well and leaves the medium as the first left it. *)
Theorem X3_remove (st : EncryptedStorage.t) (T k : string) (w : World) :
  exists w',
    EncryptedStorage.remove st T k w = (Ret tt, w') /\
    entropy w' = entropy w /\
    localStorage w' =
      delete (EncryptedStorage.storage_key st T k) (localStorage w) /\
    (forall ck, ck <> EncryptedStorage.storage_key st T k ->
                localStorage w' !! ck = localStorage w !! ck) /\
    EncryptedStorage.exists_ st T k w' = (Ret false, w') /\
    EncryptedStorage.get st T k w' = (Ret JNull, w') /\
    (localStorage w !! EncryptedStorage.storage_key st T k = None ->
     localStorage w' = localStorage w) /\
    exists w'',
      EncryptedStorage.remove st T k w' = (Ret tt, w'') /\
      localStorage w'' = localStorage w'.
Proof.
  eexists. split; [reflexivity|]. cbn [localStorage entropy].
  repeat split.
  - intros ck Hck. now apply lookup_delete_ne.
  - unfold EncryptedStorage.exists_. run. cbn [localStorage].
    now rewrite lookup_delete_eq.
  - unfold EncryptedStorage.get. run. cbn [localStorage].
    now rewrite lookup_delete_eq.
  - intros Hnone. now apply delete_id.
  - eexists. split; [reflexivity|]. cbn [localStorage].
    apply delete_id, lookup_delete_eq.
Qed.

(** X4. [getAll] lists what was set: on a medium with no key under the
    prefix of table [T], after calls of [set(T, V)] awaited in turn for
    JSON-serializable values, [getAll(T)] returns, in the order of the
    medium, exactly the values those calls returned (each value with its
    key), and leaves the world unchanged. *)
Theorem X4_getAll_lists_what_was_set (env : Env)
    (encryptionKey : option CryptoKey) (prefix : option string)
    (st : EncryptedStorage.t) (T : string) (Vs : list json) (w w' : World)
    (stored : list json) :
  EncryptedStorage.constructor
    env (AESGCMEncryptionService encryptionKey) prefix = Ret st ->
  Forall JSON_serializable Vs ->
  List.filter
    (fun key => startsWith key (EncryptedStorage.table_prefix st T))
    (Object_keys (localStorage w)) = [] ->
  set_in_turn st T Vs w = (Ret stored, w') ->
  exists rs,
    EncryptedStorage.getAll st T w' = (Ret rs, w') /\ rs ≡ₚ stored.
Proof.
  intros ->%constructed HVs Hnil Hrun.
  apply set_in_turn_records in Hrun
    as (ks & -> & Hnd & _ & Hrecs & Hframe).
  destruct (collect_records encryptionKey prefix T (localStorage w') Vs ks
              HVs Hrecs Hnd) as (rs & Hrs & Hperm).
  - intros ck [[item Hitem] Hp]%elem_of_table_keys.
    destruct (decide (ck ∈ EncryptedStorage.storage_key
                              (store encryptionKey prefix) T <$> ks))
      as [(k & -> & Hk)%list_elem_of_fmap|Hout]; [eauto|].
    rewrite Hframe in Hitem.
    + now rewrite (table_keys_nil encryptionKey prefix T _ ck Hnil Hp)
        in Hitem.
    + intros k Hk ->. apply Hout, list_elem_of_fmap. eauto.
  - exists rs. split; [|exact Hperm]. now rewrite getAll_run, Hrs.
Qed.

(** X5. One record through every operation: on a medium with no key under
    the prefix of table [T], after a returning [set(T, V)] for a
    JSON-serializable [V], [getAll(T)] returns the one value [set]
    returned and [filter(T, p)] returns it or nothing as [p] decides on
    that value; [remove(T, key)] then returns, and afterwards [get] returns
    [null] and [getAll] and [filter] return the empty list. *)
Theorem X5_one_record_lifecycle (env : Env)
    (encryptionKey : option CryptoKey) (prefix : option string)
    (st : EncryptedStorage.t) (T k : string) (V : json)
    (key : option string) (w w1 : World) (stored : json) :
  EncryptedStorage.constructor
    env (AESGCMEncryptionService encryptionKey) prefix = Ret st ->
  JSON_serializable V ->
  List.filter
    (fun key => startsWith key (EncryptedStorage.table_prefix st T))
    (Object_keys (localStorage w)) = [] ->
  EncryptedStorage.set st T V key w = (Ret stored, w1) ->
  get_property "key" stored = Some (JStr k) ->
  EncryptedStorage.getAll st T w1 = (Ret [stored], w1) /\
  (forall p, EncryptedStorage.filter st T p w1 =
             (Ret (if p stored then [stored] else []), w1)) /\
  exists w2,
    EncryptedStorage.remove st T k w1 = (Ret tt, w2) /\
    EncryptedStorage.get st T k w2 = (Ret JNull, w2) /\
    EncryptedStorage.getAll st T w2 = (Ret [], w2) /\
    (forall p, EncryptedStorage.filter st T p w2 = (Ret [], w2)).
Proof.
  intros ->%constructed HV Hnil Hset Hkey.
  apply set_records in Hset as (k0 & -> & Hrec & Hframe & _).
  rewrite key_of_spread in Hkey. injection Hkey as ->.
  assert (forall ck,
            ck <> EncryptedStorage.storage_key
                    (store encryptionKey prefix) T k ->
            startsWith ck (EncryptedStorage.table_prefix
                             (store encryptionKey prefix) T) = true ->
            localStorage w1 !! ck = None) as Hother.
  { intros ck Hck Hp. rewrite Hframe by exact Hck.
    now apply (table_keys_nil encryptionKey prefix T). }
  assert (EncryptedStorage.getAll (store encryptionKey prefix) T w1
          = (Ret [spread_with_key V k], w1)) as Hall.
  { destruct (collect_records encryptionKey prefix T (localStorage w1)
                [V] [k]) as (rs & Hrs & ->%Permutation_singleton_r).
    - now constructor.
    - now constructor.
    - repeat constructor. intros Hin. inversion Hin.
    - intros ck [[item Hitem] Hp]%elem_of_table_keys. exists k.
      split; [apply elem_of_cons; auto|].
      destruct (decide (ck = EncryptedStorage.storage_key
                               (store encryptionKey prefix) T k));
        [assumption|].
      rewrite Hother in Hitem by assumption. discriminate.
    - now rewrite getAll_run, Hrs. }
  split; [exact Hall|]. split.
  { intros p. rewrite filter_run, Hall. cbn [fst List.filter].
    now destruct (p _). }
  eexists. split; [reflexivity|].
  assert (EncryptedStorage.getAll (store encryptionKey prefix) T
            (mkWorld
               (delete (EncryptedStorage.storage_key
                          (store encryptionKey prefix) T k)
                       (localStorage w1)) (entropy w1))
          = (Ret [], mkWorld
               (delete (EncryptedStorage.storage_key
                          (store encryptionKey prefix) T k)
                       (localStorage w1)) (entropy w1))) as Hgone.
  { rewrite getAll_run. cbn [localStorage].
    rewrite (nil_of_no_elem (table_keys _ _ _ _)); [reflexivity|].
    intros ck [[item Hitem] Hp]%elem_of_table_keys.
    destruct (decide (ck = EncryptedStorage.storage_key
                             (store encryptionKey prefix) T k)) as [->|Hne].
    - rewrite lookup_delete_eq in Hitem. discriminate.
    - rewrite lookup_delete_ne, Hother in Hitem by auto. discriminate. }
  split; [|split; [exact Hgone|]].
  - rewrite get_run. cbn [localStorage]. now rewrite lookup_delete_eq.
  - intros p. now rewrite filter_run, Hgone.
Qed.

(** X6. The keys [getAll] returns address its records: every record
    [getAll(T)] returns is a value merged with a key [k], for which
    [exists(T, k)] answers [true] and [get(T, k)] returns that value, on
    the same medium. *)
Theorem X6_getAll_keys_address_records (env : Env)
    (encryptionKey : option CryptoKey) (prefix : option string)
    (st : EncryptedStorage.t) (T : string) (w w' : World) (rs : list json)
    (r : json) :
  EncryptedStorage.constructor
    env (AESGCMEncryptionService encryptionKey) prefix = Ret st ->
  EncryptedStorage.getAll st T w = (Ret rs, w') ->
  r ∈ rs ->
  exists k V,
    r = spread_with_key V k /\
    get_property "key" r = Some (JStr k) /\
    EncryptedStorage.exists_ st T k w = (Ret true, w) /\
    EncryptedStorage.get st T k w = (Ret V, w).
Proof.
  intros ->%constructed Hall Hr. rewrite getAll_run in Hall.
  injection Hall as Hall _.
  destruct (collect_elem _ _ _ _ Hall Hr) as [Hin|Hin]; [inversion Hin|].
  apply list_elem_of_In, in_map_iff in Hin as (ck & Hturn & Hck).
  apply list_elem_of_In, elem_of_table_keys in Hck as [_ Hp].
  destruct (read_record_origin encryptionKey prefix T _ _ _ Hp Hturn)
    as (k & V & -> & <- & Ht & Hv).
  exists k, V. split; [reflexivity|]. split; [apply key_of_spread|].
  split; [now rewrite exists_run, Ht | now rewrite get_run, Hv].
Qed.

(** X7. A returning [set] touches one entry: [get] and [exists] answer as
    before for every table and key whose storage key is not the one
    written, in particular for every other key of the same table; and a
    [set] without a key leaves in place every entry that [exists] saw
    before, of whatever table. *)
Theorem X7_set_touches_one_entry (env : Env)
    (encryptionKey : option CryptoKey) (prefix : option string)
    (st : EncryptedStorage.t) (T k : string) (V : json)
    (key : option string) (w w' : World) (stored : json) :
  EncryptedStorage.constructor
    env (AESGCMEncryptionService encryptionKey) prefix = Ret st ->
  EncryptedStorage.set st T V key w = (Ret stored, w') ->
  get_property "key" stored = Some (JStr k) ->
  (forall T' k',
     EncryptedStorage.storage_key st T' k' <>
       EncryptedStorage.storage_key st T k ->
     EncryptedStorage.get st T' k' w' =
       (fst (EncryptedStorage.get st T' k' w), w') /\
     EncryptedStorage.exists_ st T' k' w' =
       (fst (EncryptedStorage.exists_ st T' k' w), w')) /\
  (forall k', k' <> k ->
     EncryptedStorage.get st T k' w' =
       (fst (EncryptedStorage.get st T k' w), w')) /\
  (key = None ->
   forall T' k',
     EncryptedStorage.exists_ st T' k' w = (Ret true, w) ->
     localStorage w' !! EncryptedStorage.storage_key st T' k' =
       localStorage w !! EncryptedStorage.storage_key st T' k').
Proof.
  intros ->%constructed Hset Hkey.
  apply set_records in Hset as (k0 & -> & _ & Hframe & Hfresh & _).
  rewrite key_of_spread in Hkey. injection Hkey as ->.
  split; [|split].
  - intros T' k' Hne. rewrite !get_run, !exists_run. cbn [fst].
    now rewrite (Hframe _ Hne).
  - intros k' Hne. rewrite !get_run. cbn [fst]. rewrite Hframe; [done|].
    intros E%storage_key_inj. contradiction.
  - intros -> T' k' [= Hseen]. apply Hframe. intros E.
    rewrite E, (Hfresh eq_refl) in Hseen. discriminate.
Qed.


(** X9. Reload: a record set through a store the factory made without a
    prefix is found and read back, on the medium that [set] left and
    whatever the random generator holds then, by a store the factory makes
    again from the same secret and salt with the prefix ["@edb"]. *)
Theorem X9_reload_reads_back (env1 env2 : Env) (secret salt : string)
    (st1 st2 : EncryptedStorage.t) (T : string) (V : json)
    (key : option string) (w w' : World) (stored : json) (later : bytes) :
  EncryptedStorage.createTypedSecureStorage env1 secret salt None = inr st1 ->
  EncryptedStorage.createTypedSecureStorage env2 secret salt (Some "@edb")
    = inr st2 ->
  JSON_serializable V ->
  EncryptedStorage.set st1 T V key w = (Ret stored, w') ->
  let reloaded := mkWorld (localStorage w') later in
  exists k,
    get_property "key" stored = Some (JStr k) /\
    EncryptedStorage.exists_ st2 T k reloaded = (Ret true, reloaded) /\
    EncryptedStorage.get st2 T k reloaded = (Ret V, reloaded).
Proof.
  intros ->%factory_inv ->%factory_inv HV Hset reloaded.
  change (store ?c (Some "@edb")) with (store c None).
  apply set_records in Hset as (k & -> & Hrec & _).
  exists k. split; [apply key_of_spread|].
  rewrite exists_run, get_run. subst reloaded. cbn [localStorage].
  rewrite (holds_record_truthy _ _ _ _ _ _ Hrec).
  now rewrite (read_value_of_record _ _ _ _ _ _ Hrec HV).
Qed.

(** X10. Shape of the value [set] returns: its [key] property is the
    record key; for an object value every other property is the one of the
    value (a [key] property of the value itself is replaced in the result,
    while [get] returns the value with its own); for [null], a boolean or a
    number the result is the object with the sole property [key]. *)
Theorem X10_stored_value_shape (env : Env)
    (encryptionKey : option CryptoKey) (prefix : option string)
    (st : EncryptedStorage.t) (T : string) (V : json)
    (key : option string) (w w' : World) (stored : json) :
  EncryptedStorage.constructor
    env (AESGCMEncryptionService encryptionKey) prefix = Ret st ->
  EncryptedStorage.set st T V key w = (Ret stored, w') ->
  exists k,
    get_property "key" stored = Some (JStr k) /\
    (forall props name,
       V = JObj props -> name <> "key" ->
       get_property name stored = get_property name V) /\
    (JSON_serializable V -> EncryptedStorage.get st T k w' = (Ret V, w')) /\
    match V with
    | JNull | JBool _ | JNum _ => stored = JObj [("key", JStr k)]
    | JStr _ | JArr _ | JObj _ => True
    end.
Proof.
  intros ->%constructed Hset.
  apply set_records in Hset as (k & -> & Hrec & _).
  exists k. split; [apply key_of_spread|]. split; [|split].
  - intros props name -> Hname. unfold spread_with_key, get_property.
    cbn [own_properties]. now apply prop_lookup_assign_ne.
  - intros HV. rewrite get_run.
    now rewrite (read_value_of_record _ _ _ _ _ _ Hrec HV).
  - destruct V; done.
Qed.

(** X11. Reading changes nothing: [exists], [get], [getAll] and [filter]
    leave the medium and the random supply as they are, whatever they
    return or throw, and none of them needs a random byte. *)
Theorem X11_reads_change_nothing (env : Env)
    (encryptionKey : option CryptoKey) (prefix : option string)
    (st : EncryptedStorage.t) (T k : string) (p : json -> bool) (w : World) :
  EncryptedStorage.constructor
    env (AESGCMEncryptionService encryptionKey) prefix = Ret st ->
  snd (EncryptedStorage.exists_ st T k w) = w /\
  snd (EncryptedStorage.get st T k w) = w /\
  snd (EncryptedStorage.getAll st T w) = w /\
  snd (EncryptedStorage.filter st T p w) = w /\
  fst (EncryptedStorage.get st T k w) <> Starved /\
  fst (EncryptedStorage.getAll st T w) <> Starved /\
  fst (EncryptedStorage.filter st T p w) <> Starved.
Proof.
  intros ->%constructed.
  rewrite exists_run, get_run, filter_run, getAll_run. cbn [fst snd].
  assert (forall turns results, Starved ∉ turns ->
            collect turns results <> Starved) as Hcollect.
  { induction turns as [|t turns IH]; intros results Hno; [discriminate|].
    destruct t as [[r|]| |]; cbn [collect]; try discriminate.
    - apply IH. intros Hin. apply Hno, elem_of_cons. auto.
    - apply IH. intros Hin. apply Hno, elem_of_cons. auto.
    - destruct Hno. apply elem_of_cons. auto. }
  assert (collect
            (map (read_record encryptionKey prefix T (localStorage w))
                 (table_keys encryptionKey prefix T (localStorage w))) []
          <> Starved) as Hall.
  { apply Hcollect. intros [ck [Hs _]]%list_elem_of_In%in_map_iff.
    now apply read_record_not_starved in Hs. }
  repeat split; try exact Hall.
  - unfold read_value. destruct (negb _); [discriminate|].
    pose proof (decrypt_not_starved encryptionKey
                  (default "" (localStorage w !! EncryptedStorage.storage_key
                                 (store encryptionKey prefix) T k))).
    destruct (decrypt_outcome _ _); try congruence.
    destruct (JSON_parse _); discriminate.
  - destruct (collect _ _); congruence.
Qed.

(** X12. Entries are addressed by storage key alone: the record set under
    table [B_r] with key [k] is found by [exists(B, r_k)] and returned by
    [get(B, r_k)], and [remove(B, r_k)] deletes it, after which
    [get(B_r, k)] returns [null] and [exists(B_r, k)] answers [false]. *)
Theorem X12_tables_alias (env : Env) (encryptionKey : option CryptoKey)
    (prefix : option string) (st : EncryptedStorage.t) (B r k : string)
    (V : json) (key : option string) (w w' : World) (stored : json) :
  EncryptedStorage.constructor
    env (AESGCMEncryptionService encryptionKey) prefix = Ret st ->
  JSON_serializable V ->
  EncryptedStorage.set st (B ++ "_" ++ r) V key w = (Ret stored, w') ->
  get_property "key" stored = Some (JStr k) ->
  EncryptedStorage.exists_ st B (r ++ "_" ++ k) w' = (Ret true, w') /\
  EncryptedStorage.get st B (r ++ "_" ++ k) w' = (Ret V, w') /\
  exists w2,
    EncryptedStorage.remove st B (r ++ "_" ++ k) w' = (Ret tt, w2) /\
    EncryptedStorage.get st (B ++ "_" ++ r) k w2 = (Ret JNull, w2) /\
    EncryptedStorage.exists_ st (B ++ "_" ++ r) k w2 = (Ret false, w2).
Proof.
  intros ->%constructed HV Hset Hkey.
  apply set_records in Hset as (k0 & -> & Hrec & _).
  rewrite key_of_spread in Hkey. injection Hkey as ->.
  pose proof (holds_record_truthy _ _ _ _ _ _ Hrec) as Ht.
  pose proof (read_value_of_record _ _ _ _ _ _ Hrec HV) as Hv.
  rewrite storage_key_nested in Ht, Hv.
  split; [now rewrite exists_run, Ht|]. split; [now rewrite get_run, Hv|].
  eexists. split; [reflexivity|].
  rewrite get_run, exists_run. cbn [localStorage].
  now rewrite storage_key_nested, lookup_delete_eq.
Qed.

(** X14. [setMultiple] on a store whose service has no key: under every
    schedule the medium is left as it is, no call resolves (a settled call
    is rejected with ["Encryption key has not been initialized."]) and,
    for a batch that is not empty, [Promise.all] has nothing to resolve
    with; with 16 random bytes a value and the UUIDs of the first draws
    free, every schedule that resumes each call once ends with every call
    rejected, 16 random bytes a value used. *)
Theorem X14_setMultiple_without_key (env : Env) (prefix : option string)
    (st : EncryptedStorage.t) (T : string) (Vs : list json) (w : World)
    (schedule : list nat) :
  EncryptedStorage.constructor env (AESGCMEncryptionService None) prefix
    = Ret st ->
  localStorage (snd (setMultiple None prefix schedule T Vs w))
    = localStorage w /\
  (forall calls w',
     setMultiple None prefix schedule T Vs w = (Ret calls, w') ->
     (forall c o,
        c ∈ calls -> settlement c = Some o ->
        o = Throw AESGCM.not_initialized) /\
     (Vs <> [] -> Promise_all calls = None)) /\
  ((16 * length Vs <= length (entropy w))%nat ->
   Forall (fun U => EncryptedStorage.exists_ st T U w = (Ret false, w))
          (batch_keys (length Vs) (entropy w)) ->
   (forall i, (i < length Vs)%nat ->
              (1 <= count_occ Nat.eq_dec schedule i)%nat) ->
   setMultiple None prefix schedule T Vs w =
     (Ret (map (fun _ => Rejected AESGCM.not_initialized) Vs),
      drawn (16 * length Vs) w)).
Proof.
  intros ->%constructed.
  destruct (setMultiple_unkeyed None prefix T Vs w schedule eq_refl)
    as [Hmedium Hcalls].
  split; [exact Hmedium|]. split.
  - intros calls w' Hrun. destruct (Hcalls _ _ Hrun) as [Hall Hlen].
    split.
    + intros c o Hc Ho. rewrite Forall_forall in Hall.
      specialize (Hall _ Hc). destruct c; cbn in *; simplify_eq;
        try contradiction. reflexivity.
    + intros Hne. apply Promise_all_unkeyed; [exact Hall|].
      intros ->. now destruct Vs.
  - intros Hn Hfree Hsched. apply setMultiple_unkeyed_run; try done.
    eapply Forall_impl; [exact Hfree|]. intros U HU. cbn beta in HU.
    rewrite exists_run in HU. congruence.
Qed.

(** X15. A batch of one value is a call of [set]: when [set(T, V)]
    returns or throws, [setMultiple(T, [V])] in the same world ends, under
    every schedule that resumes the call often enough, with the one call
    settled as [set] did, result or exception, in the world [set] leaves. *)
Theorem X15_setMultiple_of_one (env : Env)
    (encryptionKey : option CryptoKey) (prefix : option string)
    (st : EncryptedStorage.t) (T : string) (V : json) (w w' : World)
    (o : outcome json) :
  EncryptedStorage.constructor
    env (AESGCMEncryptionService encryptionKey) prefix = Ret st ->
  EncryptedStorage.set st T V None w = (o, w') ->
  o <> Starved ->
  exists turns c,
    settlement c = Some o /\
    forall schedule,
      (turns <= count_occ Nat.eq_dec schedule 0)%nat ->
      setMultiple encryptionKey prefix schedule T [V] w = (Ret [c], w').
Proof.
  intros ->%constructed Hset Hst.
  exact (setMultiple_single encryptionKey prefix T V w w' o Hset Hst).
Qed.
(** X16. Tables whose names do not contain the separator ["_"] are
    apart: for two such names [A] and [B] that differ, a returning
    [set(A, ...)] leaves every [get(B, k)] as it was and [getAll(B)] with
    the same records (up to the order in which the medium lists its
    keys), and so does [remove(A, k)]. *)
Theorem X16_separator_free_tables_apart (env : Env)
    (encryptionKey : option CryptoKey) (prefix : option string)
    (st : EncryptedStorage.t) (A B : string) (V : json)
    (key : option string) (w w' : World) (stored : json) :
  EncryptedStorage.constructor
    env (AESGCMEncryptionService encryptionKey) prefix = Ret st ->
  has_separator A = false -> has_separator B = false -> A <> B ->
  EncryptedStorage.set st A V key w = (Ret stored, w') ->
  (forall k, EncryptedStorage.get st B k w' =
             (fst (EncryptedStorage.get st B k w), w')) /\
  (forall rs,
     EncryptedStorage.getAll st B w = (Ret rs, w) ->
     exists rs',
       EncryptedStorage.getAll st B w' = (Ret rs', w') /\ rs' ≡ₚ rs) /\
  (forall k rs,
     EncryptedStorage.getAll st B w = (Ret rs, w) ->
     exists w2 rs',
       EncryptedStorage.remove st A k w = (Ret tt, w2) /\
       EncryptedStorage.getAll st B w2 = (Ret rs', w2) /\ rs' ≡ₚ rs).
Proof.
  intros ->%constructed HA HB Hne Hset.
  apply set_effect in Hset as (fk & c & iv & ct & _ & _ & _ & _ & Hls & _).
  assert (forall k ck,
            startsWith ck (EncryptedStorage.table_prefix
                             (store encryptionKey prefix) B) = true ->
            ck <> EncryptedStorage.storage_key
                    (store encryptionKey prefix) A k) as Hapart.
  { intros k ck Hp ->.
    now rewrite (storage_key_other_table encryptionKey prefix A B k) in Hp. }
  split; [|split].
  - intros k. rewrite !get_run. cbn [fst]. rewrite Hls.
    rewrite lookup_insert_ne; [reflexivity|].
    intros E. symmetry in E. revert E. apply Hapart.
    rewrite storage_key_app. apply prefix_app.
  - intros rs Hall. apply (getAll_agree encryptionKey prefix B w w' rs);
      [|exact Hall].
    intros ck Hp. rewrite Hls. apply lookup_insert_ne.
    intros E. symmetry in E. revert E. now apply Hapart.
  - intros k rs Hall. eexists.
    destruct (getAll_agree encryptionKey prefix B w
                (mkWorld (delete (EncryptedStorage.storage_key
                                    (store encryptionKey prefix) A k)
                                 (localStorage w)) (entropy w)) rs)
      as (rs' & Hall' & Hperm); [|exact Hall|].
    + intros ck Hp. cbn [localStorage]. apply lookup_delete_ne.
      intros E. symmetry in E. revert E. now apply Hapart.
    + exists rs'. split; [reflexivity|]. split; [exact Hall' | exact Hperm].
Qed.
End Extras.


(** ** Concrete runs *)

Module Runs.
Definition P : Platform := MockLaws.platform.
Definition secret : option (@CryptoKey P) := Some (list_byte_of_string "s1").
Definition st : EncryptedStorage.t := @store P secret None.
Definition random : bytes :=
  list_byte_of_string
    "0123456789abcdefghijklmnopqrstuvwxyzABCDEFGHIJKLMNOPQRSTUVWXYZ".
Definition fresh : World := mkWorld ∅ random.
Definition todo : json :=
  JObj [("title", JStr "Buy milk"); ("completed", JBool false)].
Definition todo_key : string := "30313233-3435-3637-3839-616263646566".
Definition next_key : string := "73747576-7778-797a-4142-434445464748".

(** The medium after [set("todos", todo)] on the empty one. *)
Definition after_todo : World :=
  snd (@EncryptedStorage.set P st "todos" todo None fresh).

(** A medium where the first UUID the generator will give is taken. *)
Definition crowded : World := mkWorld (localStorage after_todo) random.

(** Media with one entry that no [set] wrote: unreadable text, no text. *)
Definition garbled : World := mkWorld {[ "@edb_todos_k" := "garbage" ]} random.
Definition blank : World := mkWorld {[ "@edb_todos_k" := "" ]} random.

(** A store over the same medium under another secret. *)
Definition other_secret : option (@CryptoKey P) :=
  Some (list_byte_of_string "s2").
Definition other_st : EncryptedStorage.t := @store P other_secret None.

(** The medium of [after_todo] with a second entry of the table, empty. *)
Definition todo_and_blank : World :=
  mkWorld (<["@edb_todos_zz" := ""]> (localStorage after_todo)) random.
End Runs.

(** A computed outcome fixes the run. *)
Lemma run_Ret {A} (m : M A) (w : World) (a : A) :
  fst (m w) = Ret a -> m w = (Ret a, snd (m w)).
Proof. destruct (m w) as [o w']. cbn. now intros ->. Qed.

Lemma C1_set_get_roundtrip_witness :
  exists stored w',
    @EncryptedStorage.set Runs.P Runs.st "todos" Runs.todo None Runs.fresh
      = (Ret stored, w') /\
    get_property "key" stored = Some (JStr Runs.todo_key) /\
    @EncryptedStorage.get Runs.P Runs.st "todos" Runs.todo_key w'
      = (Ret Runs.todo, w').
Proof.
  pose proof (run_Ret
    (@EncryptedStorage.set Runs.P Runs.st "todos" Runs.todo None) Runs.fresh
    (spread_with_key Runs.todo Runs.todo_key) ltac:(vm_compute; reflexivity))
    as Hset.
  eexists _, _. split; [exact Hset|]. split; [reflexivity|].
  destruct (@C1_set_get_roundtrip Runs.P browser Runs.secret None Runs.st
              "todos" Runs.todo None Runs.fresh _ _ eq_refl
              ltac:(vm_compute; reflexivity) Hset)
    as (k & item & Hk & _ & _ & Hget).
  rewrite key_of_spread in Hk. injection Hk as <-. exact Hget.
Defined.

Lemma C2_tables_overlap_witness :
  exists stored w',
    @EncryptedStorage.set Runs.P Runs.st "a_b" Runs.todo (Some "k") Runs.fresh
      = (Ret stored, w') /\
    "a_b" <> "a" /\
    @EncryptedStorage.storage_key Runs.st "a_b" "k" =
      @EncryptedStorage.storage_key Runs.st "a" "b_k" /\
    @EncryptedStorage.getAll Runs.P Runs.st "a" w' =
      (Ret [spread_with_key Runs.todo "b_k"], w').
Proof.
  pose proof (run_Ret
    (@EncryptedStorage.set Runs.P Runs.st "a_b" Runs.todo (Some "k"))
    Runs.fresh (spread_with_key Runs.todo "k")
    ltac:(vm_compute; reflexivity)) as Hset.
  eexists _, _. split; [exact Hset|].
  exact (@C2_tables_overlap Runs.P browser Runs.secret None Runs.st
           "a" "b" "k" Runs.todo (Some "k") Runs.fresh _ _ eq_refl
           ltac:(vm_compute; reflexivity) eq_refl Hset eq_refl).
Defined.




Lemma C5_get_absent_or_throws_witness :
  @EncryptedStorage.get Runs.P Runs.st "todos" "k" Runs.fresh
    = (Ret JNull, Runs.fresh) /\
  @EncryptedStorage.get Runs.P Runs.st "todos" "k" Runs.garbled
    = (Throw SyntaxError, Runs.garbled) /\
  @EncryptedStorage.get Runs.P Runs.other_st "todos" Runs.todo_key
    Runs.after_todo = (Throw OperationError, Runs.after_todo).
Proof.
  split; [|split].
  - apply (@C5_get_absent_or_throws Runs.P browser Runs.secret None Runs.st
             "todos" "k" Runs.fresh eq_refl). reflexivity.
  - apply (@C5_get_absent_or_throws Runs.P browser Runs.secret None Runs.st
             "todos" "k" Runs.garbled eq_refl) with (item := "garbage").
    + reflexivity.
    + discriminate.
    + vm_compute. reflexivity.
  - eapply (@C5_get_absent_or_throws Runs.P browser Runs.other_secret None
              Runs.other_st "todos" Runs.todo_key Runs.after_todo eq_refl).
    + vm_compute. reflexivity.
    + discriminate.
    + vm_compute. reflexivity.
Defined.

(** C5 as stated fails on an entry whose text is empty: the entry is in
    the medium, [decrypt] throws on its text, and [get] returns [null], the
    answer it gives for an absent entry. *)
Lemma C5_counterexample :
  localStorage Runs.blank !! @EncryptedStorage.storage_key Runs.st "todos" "k"
    = Some "" /\
  @AESGCM.decrypt Runs.P Runs.secret "" Runs.blank
    = (Throw SyntaxError, Runs.blank) /\
  @EncryptedStorage.get Runs.P Runs.st "todos" "k" Runs.blank
    = (Ret JNull, Runs.blank).
Proof. repeat split; vm_compute; reflexivity. Qed.

Lemma C6_getAll_aborts_witness :
  @EncryptedStorage.getAll Runs.P Runs.st "todos" Runs.garbled
    = (Throw SyntaxError, Runs.garbled) /\
  exists e',
    @EncryptedStorage.getAll Runs.P Runs.st "todos" Runs.garbled
      = (Throw e', Runs.garbled) /\
    forall p,
      @EncryptedStorage.filter Runs.P Runs.st "todos" p Runs.garbled
        = (Throw e', Runs.garbled).
Proof.
  destruct (@C6_getAll_aborts Runs.P browser Runs.secret None Runs.st
              "todos" "@edb_todos_k" "garbage" SyntaxError Runs.garbled
              eq_refl ltac:(vm_compute; reflexivity) eq_refl
              ltac:(discriminate) ltac:(vm_compute; reflexivity))
    as (Hany & Hfirst).
  split; [|exact Hany].
  apply (Hfirst [] [] []); vm_compute; reflexivity.
Defined.

(** C6 as stated fails on an entry whose text is empty: [decrypt] throws
    on that text, the entry is among those [getAll] scans, and [getAll]
    returns the other record of the table instead of throwing. *)
Lemma C6_counterexample :
  localStorage Runs.todo_and_blank !! "@edb_todos_zz" = Some "" /\
  startsWith "@edb_todos_zz" (@EncryptedStorage.table_prefix Runs.st "todos")
    = true /\
  @AESGCM.decrypt Runs.P Runs.secret "" Runs.todo_and_blank
    = (Throw SyntaxError, Runs.todo_and_blank) /\
  @EncryptedStorage.getAll Runs.P Runs.st "todos" Runs.todo_and_blank
    = (Ret [spread_with_key Runs.todo Runs.todo_key], Runs.todo_and_blank).
Proof. repeat split; vm_compute; reflexivity. Qed.




Lemma C10_empty_item_witness :
  @EncryptedStorage.exists_ Runs.st "todos" "k" Runs.blank
    = (Ret false, Runs.blank) /\
  @EncryptedStorage.get Runs.P Runs.st "todos" "k" Runs.blank
    = (Ret JNull, Runs.blank) /\
  @EncryptedStorage.getAll Runs.P Runs.st "todos" Runs.blank
    = (Ret [], Runs.blank).
Proof.
  destruct (@C10_empty_item Runs.P browser
              (@AESGCMEncryptionService Runs.P Runs.secret) None Runs.st
              "todos" "k" Runs.blank eq_refl eq_refl)
    as (Hexists & Hget & Hall).
  split; [exact Hexists|]. split; [exact Hget|].
  rewrite (Hall Runs.secret eq_refl). reflexivity.
Defined.

(** ** Runs of the further properties *)

Lemma X1_encrypt_decrypt_roundtrip_witness :
  exists e w1,
    @AESGCM.encrypt Runs.P Runs.secret "text" Runs.fresh = (Ret e, w1) /\
    e <> "" /\
    entropy w1 = drop 12 Runs.random /\
    forall w2, @AESGCM.decrypt Runs.P Runs.secret e w2 = (Ret "text", w2).
Proof.
  destruct (@encrypt_total Runs.P (list_byte_of_string "s1") "text" Runs.fresh
              ltac:(vm_compute; lia)) as [e H1].
  eexists e, _. split; [exact H1|].
  destruct (@X1_encrypt_decrypt_roundtrip Runs.P Runs.secret "text" e
              Runs.fresh _ ltac:(vm_compute; reflexivity) H1)
    as (Hne & _ & Hent & Hdec).
  split; [exact Hne|]. split; [exact Hent | exact Hdec].
Defined.

Lemma X4_getAll_lists_what_was_set_witness :
  exists stored w' rs,
    @set_in_turn Runs.P Runs.st "todos" [Runs.todo; JNum 7] Runs.fresh
      = (Ret stored, w') /\
    length stored = 2%nat /\
    @EncryptedStorage.getAll Runs.P Runs.st "todos" w' = (Ret rs, w') /\
    rs ≡ₚ stored.
Proof.
  pose proof (run_Ret
    (@set_in_turn Runs.P Runs.st "todos" [Runs.todo; JNum 7]) Runs.fresh
    [spread_with_key Runs.todo Runs.todo_key;
     spread_with_key (JNum 7) Runs.next_key]
    ltac:(vm_compute; reflexivity)) as Hrun.
  destruct (@X4_getAll_lists_what_was_set Runs.P browser Runs.secret None
              Runs.st "todos" [Runs.todo; JNum 7] Runs.fresh _ _ eq_refl
              ltac:(repeat constructor; vm_compute; reflexivity)
              ltac:(vm_compute; reflexivity) Hrun) as (rs & Hall & Hperm).
  eexists _, _, rs. split; [exact Hrun|]. split; [reflexivity|].
  split; [exact Hall | exact Hperm].
Defined.

Lemma X5_one_record_lifecycle_witness :
  exists stored w1 w2,
    @EncryptedStorage.set Runs.P Runs.st "todos" Runs.todo None Runs.fresh
      = (Ret stored, w1) /\
    @EncryptedStorage.getAll Runs.P Runs.st "todos" w1 = (Ret [stored], w1) /\
    @EncryptedStorage.filter Runs.P Runs.st "todos" (fun _ => true) w1
      = (Ret [stored], w1) /\
    @EncryptedStorage.filter Runs.P Runs.st "todos" (fun _ => false) w1
      = (Ret [], w1) /\
    @EncryptedStorage.remove Runs.st "todos" Runs.todo_key w1 = (Ret tt, w2) /\
    @EncryptedStorage.get Runs.P Runs.st "todos" Runs.todo_key w2
      = (Ret JNull, w2) /\
    @EncryptedStorage.getAll Runs.P Runs.st "todos" w2 = (Ret [], w2).
Proof.
  pose proof (run_Ret
    (@EncryptedStorage.set Runs.P Runs.st "todos" Runs.todo None) Runs.fresh
    (spread_with_key Runs.todo Runs.todo_key) ltac:(vm_compute; reflexivity))
    as Hset.
  destruct (@X5_one_record_lifecycle Runs.P browser Runs.secret None Runs.st
              "todos" Runs.todo_key Runs.todo None Runs.fresh _ _ eq_refl
              ltac:(vm_compute; reflexivity) ltac:(vm_compute; reflexivity)
              Hset ltac:(apply key_of_spread))
    as (Hall & Hfilter & w2 & Hremove & Hget & Hnone & _).
  eexists _, _, w2. split; [exact Hset|]. split; [exact Hall|].
  split; [exact (Hfilter (fun _ => true))|].
  split; [exact (Hfilter (fun _ => false))|].
  split; [exact Hremove|]. split; [exact Hget | exact Hnone].
Defined.

Lemma X6_getAll_keys_address_records_witness :
  exists rs r k V,
    @EncryptedStorage.getAll Runs.P Runs.st "todos" Runs.after_todo
      = (Ret rs, Runs.after_todo) /\
    r ∈ rs /\
    r = spread_with_key V k /\
    get_property "key" r = Some (JStr k) /\
    @EncryptedStorage.exists_ Runs.st "todos" k Runs.after_todo
      = (Ret true, Runs.after_todo) /\
    @EncryptedStorage.get Runs.P Runs.st "todos" k Runs.after_todo
      = (Ret V, Runs.after_todo).
Proof.
  assert (@EncryptedStorage.getAll Runs.P Runs.st "todos" Runs.after_todo
          = (Ret [spread_with_key Runs.todo Runs.todo_key], Runs.after_todo))
    as Hall by (vm_compute; reflexivity).
  destruct (@X6_getAll_keys_address_records Runs.P browser Runs.secret None
              Runs.st "todos" Runs.after_todo _ _
              (spread_with_key Runs.todo Runs.todo_key) eq_refl Hall
              ltac:(apply list_elem_of_here))
    as (k & V & Hr & Hk & Hexists & Hget).
  eexists _, _, k, V. split; [exact Hall|].
  split; [apply list_elem_of_here|]. repeat split; assumption.
Defined.

Lemma X7_set_touches_one_entry_witness :
  exists stored w',
    @EncryptedStorage.set Runs.P Runs.st "notes" (JNum 7) None
      Runs.after_todo = (Ret stored, w') /\
    get_property "key" stored = Some (JStr Runs.next_key) /\
    @EncryptedStorage.get Runs.P Runs.st "todos" Runs.todo_key w'
      = (fst (@EncryptedStorage.get Runs.P Runs.st "todos" Runs.todo_key
                Runs.after_todo), w') /\
    localStorage w' !! @EncryptedStorage.storage_key Runs.st "todos"
                         Runs.todo_key =
      localStorage Runs.after_todo !! @EncryptedStorage.storage_key Runs.st
                                        "todos" Runs.todo_key.
Proof.
  pose proof (run_Ret
    (@EncryptedStorage.set Runs.P Runs.st "notes" (JNum 7) None)
    Runs.after_todo (spread_with_key (JNum 7) Runs.next_key)
    ltac:(vm_compute; reflexivity)) as Hset.
  destruct (@X7_set_touches_one_entry Runs.P browser Runs.secret None Runs.st
              "notes" Runs.next_key (JNum 7) None Runs.after_todo _ _ eq_refl
              Hset ltac:(apply key_of_spread))
    as (Hother & _ & Hseen).
  eexists _, _. split; [exact Hset|]. split; [apply key_of_spread|]. split.
  - apply (Hother "todos" Runs.todo_key). vm_compute. discriminate.
  - apply (Hseen eq_refl "todos" Runs.todo_key). vm_compute. reflexivity.
Defined.

Lemma X9_reload_reads_back_witness :
  exists st1 st2 stored w',
    @EncryptedStorage.createTypedSecureStorage Runs.P browser "pw" "salt" None
      = inr st1 /\
    @EncryptedStorage.createTypedSecureStorage Runs.P browser "pw" "salt"
      (Some "@edb") = inr st2 /\
    @EncryptedStorage.set Runs.P st1 "todos" Runs.todo None Runs.fresh
      = (Ret stored, w') /\
    get_property "key" stored = Some (JStr Runs.todo_key) /\
    @EncryptedStorage.get Runs.P st2 "todos" Runs.todo_key
      (mkWorld (localStorage w') []) = (Ret Runs.todo, mkWorld (localStorage w') []).
Proof.
  eexists _, _.
  pose proof (eq_refl :
    @EncryptedStorage.createTypedSecureStorage Runs.P browser "pw" "salt" None
    = inr _) as H1.
  pose proof (eq_refl :
    @EncryptedStorage.createTypedSecureStorage Runs.P browser "pw" "salt"
      (Some "@edb") = inr _) as H2.
  pose proof (run_Ret
    (@EncryptedStorage.set Runs.P _ "todos" Runs.todo None) Runs.fresh
    (spread_with_key Runs.todo Runs.todo_key)
    (ltac:(vm_compute; reflexivity) :
       fst (@EncryptedStorage.set Runs.P
              (@store Runs.P
                 (Some (@subtle_deriveKey_PBKDF2 Runs.P
                          (@TextEncoder_encode Runs.P "salt") 100000 "SHA-256"
                          (@TextEncoder_encode Runs.P "pw") 256)) None)
              "todos" Runs.todo None Runs.fresh) = Ret _)) as Hset.
  destruct (@X9_reload_reads_back Runs.P browser browser "pw" "salt" _ _
              "todos" Runs.todo None Runs.fresh _ _ [] H1 H2
              ltac:(vm_compute; reflexivity) Hset)
    as (k & Hk & _ & Hget).
  eexists _, _. split; [exact H1|]. split; [exact H2|].
  split; [exact Hset|]. split; [apply key_of_spread|].
  rewrite key_of_spread in Hk. injection Hk as <-. exact Hget.
Defined.

Lemma X10_stored_value_shape_witness :
  exists stored w' k,
    @EncryptedStorage.set Runs.P Runs.st "todos"
      (JObj [("key", JStr "mine"); ("title", JStr "Buy milk")]) None
      Runs.fresh = (Ret stored, w') /\
    get_property "key" stored = Some (JStr k) /\
    k <> "mine" /\
    get_property "title" stored = Some (JStr "Buy milk") /\
    @EncryptedStorage.get Runs.P Runs.st "todos" k w' =
      (Ret (JObj [("key", JStr "mine"); ("title", JStr "Buy milk")]), w').
Proof.
  pose proof (run_Ret
    (@EncryptedStorage.set Runs.P Runs.st "todos"
       (JObj [("key", JStr "mine"); ("title", JStr "Buy milk")]) None)
    Runs.fresh
    (spread_with_key (JObj [("key", JStr "mine"); ("title", JStr "Buy milk")])
       Runs.todo_key)
    ltac:(vm_compute; reflexivity)) as Hset.
  destruct (@X10_stored_value_shape Runs.P browser Runs.secret None Runs.st
              "todos" _ None Runs.fresh _ _ eq_refl Hset)
    as (k & Hk & Hprops & Hget & _).
  eexists _, _, k. split; [exact Hset|]. split; [exact Hk|].
  split.
  - rewrite key_of_spread in Hk. injection Hk as <-. discriminate.
  - split.
    + rewrite (Hprops _ "title" eq_refl ltac:(discriminate)). reflexivity.
    + apply Hget. vm_compute. reflexivity.
Defined.

Lemma X11_reads_change_nothing_witness :
  snd (@EncryptedStorage.get Runs.P Runs.st "todos" "k" Runs.garbled)
    = Runs.garbled /\
  snd (@EncryptedStorage.getAll Runs.P Runs.st "todos" Runs.garbled)
    = Runs.garbled /\
  snd (@EncryptedStorage.getAll Runs.P Runs.st "todos" Runs.after_todo)
    = Runs.after_todo /\
  fst (@EncryptedStorage.getAll Runs.P Runs.st "todos" Runs.garbled)
    <> Starved.
Proof.
  destruct (@X11_reads_change_nothing Runs.P browser Runs.secret None Runs.st
              "todos" "k" (fun _ => true) Runs.garbled eq_refl)
    as (_ & Hget & Hall & _ & _ & Hfed & _).
  destruct (@X11_reads_change_nothing Runs.P browser Runs.secret None Runs.st
              "todos" "k" (fun _ => true) Runs.after_todo eq_refl)
    as (_ & _ & Hall' & _).
  repeat split; assumption.
Defined.

Lemma X12_tables_alias_witness :
  exists stored w' w2,
    @EncryptedStorage.set Runs.P Runs.st "a_b" Runs.todo (Some "k") Runs.fresh
      = (Ret stored, w') /\
    @EncryptedStorage.get Runs.P Runs.st "a" "b_k" w' = (Ret Runs.todo, w') /\
    @EncryptedStorage.remove Runs.st "a" "b_k" w' = (Ret tt, w2) /\
    @EncryptedStorage.get Runs.P Runs.st "a_b" "k" w2 = (Ret JNull, w2).
Proof.
  pose proof (run_Ret
    (@EncryptedStorage.set Runs.P Runs.st "a_b" Runs.todo (Some "k"))
    Runs.fresh (spread_with_key Runs.todo "k")
    ltac:(vm_compute; reflexivity)) as Hset.
  destruct (@X12_tables_alias Runs.P browser Runs.secret None Runs.st
              "a" "b" "k" Runs.todo (Some "k") Runs.fresh _ _ eq_refl
              ltac:(vm_compute; reflexivity) Hset ltac:(apply key_of_spread))
    as (_ & Hget & w2 & Hremove & Hgone & _).
  eexists _, _, w2. split; [exact Hset|]. split; [exact Hget|].
  split; [exact Hremove | exact Hgone].
Defined.


Lemma X14_setMultiple_without_key_witness :
  @setMultiple Runs.P None None [1; 0]%nat "todos" [Runs.todo; JNum 7]
    Runs.fresh =
    (Ret [Rejected AESGCM.not_initialized; Rejected AESGCM.not_initialized],
     drawn 32 Runs.fresh) /\
  @Promise_all Runs.P
    [Rejected AESGCM.not_initialized; Rejected AESGCM.not_initialized] = None.
Proof.
  destruct (@X14_setMultiple_without_key Runs.P browser None
              (@store Runs.P None None) "todos" [Runs.todo; JNum 7]
              Runs.fresh [1; 0]%nat eq_refl) as (_ & Hcalls & Hrun).
  assert (@setMultiple Runs.P None None [1; 0]%nat "todos"
            [Runs.todo; JNum 7] Runs.fresh =
          (Ret [Rejected AESGCM.not_initialized;
                Rejected AESGCM.not_initialized], drawn 32 Runs.fresh))
    as Hrun'.
  { apply Hrun.
    - vm_compute. lia.
    - repeat constructor; vm_compute; reflexivity.
    - intros [|[|i]] Hi; cbn in *; lia. }
  split; [exact Hrun'|].
  now apply (Hcalls _ _ Hrun').
Defined.

Lemma X15_setMultiple_of_one_witness :
  exists stored w' turns,
    @EncryptedStorage.set Runs.P Runs.st "todos" Runs.todo None Runs.crowded
      = (Ret stored, w') /\
    get_property "key" stored = Some (JStr "6768696a-6b6c-6d6e-6f70-717273747576") /\
    forall schedule,
      (turns <= count_occ Nat.eq_dec schedule 0)%nat ->
      @setMultiple Runs.P Runs.secret None schedule "todos" [Runs.todo]
        Runs.crowded = (Ret [Resolved stored], w').
Proof.
  pose proof (run_Ret
    (@EncryptedStorage.set Runs.P Runs.st "todos" Runs.todo None)
    Runs.crowded (spread_with_key Runs.todo "6768696a-6b6c-6d6e-6f70-717273747576")
    ltac:(vm_compute; reflexivity)) as Hset.
  destruct (@X15_setMultiple_of_one Runs.P browser Runs.secret None Runs.st
              "todos" Runs.todo Runs.crowded _ _ eq_refl Hset
              ltac:(discriminate)) as (turns & c & Hc & Hrun).
  destruct c as [| |r|]; try discriminate. injection Hc as ->.
  eexists _, _, turns. split; [exact Hset|].
  split; [apply key_of_spread | exact Hrun].
Defined.

Lemma X16_separator_free_tables_apart_witness :
  exists stored w' rs',
    @EncryptedStorage.set Runs.P Runs.st "notes" (JNum 7) None
      Runs.after_todo = (Ret stored, w') /\
    @EncryptedStorage.getAll Runs.P Runs.st "todos" w' = (Ret rs', w') /\
    rs' ≡ₚ [spread_with_key Runs.todo Runs.todo_key].
Proof.
  pose proof (run_Ret
    (@EncryptedStorage.set Runs.P Runs.st "notes" (JNum 7) None)
    Runs.after_todo (spread_with_key (JNum 7) Runs.next_key)
    ltac:(vm_compute; reflexivity)) as Hset.
  destruct (@X16_separator_free_tables_apart Runs.P browser Runs.secret None
              Runs.st "notes" "todos" (JNum 7) None Runs.after_todo _ _
              eq_refl eq_refl eq_refl ltac:(discriminate) Hset)
    as (_ & Hall & _).
  destruct (Hall [spread_with_key Runs.todo Runs.todo_key]
              ltac:(vm_compute; reflexivity)) as (rs' & Hall' & Hperm).
  eexists _, _, rs'. split; [exact Hset|].
  split; [exact Hall' | exact Hperm].
Defined.
